(** * just-mcp: the request dispatcher and process executor of [src/index.ts]

    A shallow embedding of the tool server: recipe-name validation, the
    construction of the argument vector, the event-driven process executor
    with its timeout race, the result formatter and the request boundary
    that turns thrown errors into failure responses. *)

From Stdlib Require Import ZArith String Ascii PrimFloat.
From stdpp Require Import base decidable option list gmap pretty.

Open Scope Z_scope.

(** ** JavaScript strings and values *)

(** A JavaScript string is a sequence of UTF-16 code units.  String literals
    of the source are ASCII and are written with [lit]. *)
Definition jstring : Type := list N.

Fixpoint lit (s : string) : jstring :=
  match s with
  | EmptyString => []
  | String a s' => N_of_ascii a :: lit s'
  end.

Arguments lit : simpl never.

(** The one-character string of the escape [\n]. *)
Definition NL : jstring := [10%N].

(** [Boolean(s)] for a string: the empty string is the only falsy one. *)
Definition truthy (s : jstring) : bool :=
  match s with
  | [] => false
  | _ :: _ => true
  end.

(** The values an argument bag can hold ([unknown] in the source): what a
    decoded JSON message contains, plus [undefined] for an absent property.
    Numbers are IEEE 754 doubles. *)
#[warnings="-register-all"] Inductive value : Type :=
| JUndefined
| JNull
| JBool (b : bool)
| JNum (x : float)
| JStr (s : jstring)
| JArr (elems : list value)
| JObj (fields : list (jstring * value)).

(** [Record<string, unknown>]: property names to values. *)
Abbreviation bag := (gmap jstring value).

(** [args.k]: reading a property that is absent gives [undefined]. *)
Definition prop (args : bag) (k : string) : value :=
  default JUndefined (args !! lit k).

(** The errors of the source are all [new Error(message)]. *)
Inductive thrown : Type :=
| JsError (message : jstring).

Definition error_message (e : thrown) : jstring :=
  match e with JsError m => m end.

(** ** validateRecipeName *)

(** WhiteSpace and LineTerminator code points of ECMAScript, the ones
    [String.prototype.trim] strips; all lie in the basic plane. *)
Definition is_whitespace (c : N) : bool :=
  ((9 <=? c) && (c <=? 13) || (c =? 32) || (c =? 160) || (c =? 5760)
   || (8192 <=? c) && (c <=? 8202) || (c =? 8232) || (c =? 8233)
   || (c =? 8239) || (c =? 8287) || (c =? 12288) || (c =? 65279))%N.

Fixpoint trimStart (s : jstring) : jstring :=
  match s with
  | [] => []
  | c :: s' => if is_whitespace c then trimStart s' else s
  end.

Definition trimEnd (s : jstring) : jstring := reverse (trimStart (reverse s)).

Definition trim (s : jstring) : jstring := trimEnd (trimStart s).

(** [name.startsWith("-")]. *)
Definition startsWith_dash (s : jstring) : bool :=
  match s with
  | c :: _ => (c =? 45)%N
  | [] => false
  end.

(** The character class [[a-zA-Z0-9_-]]. *)
Definition in_name_class (c : N) : bool :=
  ((97 <=? c) && (c <=? 122) || (65 <=? c) && (c <=? 90)
   || (48 <=? c) && (c <=? 57) || (c =? 95) || (c =? 45))%N.

(** [/^[a-zA-Z0-9_-]+$/.test(s)]: the pattern has no flags, so [^] and [$]
    are the two ends of the input and the class is matched per code unit:
    one or more code units, every one in the class. *)
Definition name_regex_test (s : jstring) : bool :=
  truthy s && forallb in_name_class s.

Definition validateRecipeName (name : value) : thrown + jstring :=
  match name with
  | JStr s =>
      if negb (truthy (trim s)) then
        inl (JsError (lit "Recipe name must be a non-empty string"))
      else if startsWith_dash s then
        inl (JsError (lit "Recipe name cannot start with '-'"))
      else if negb (name_regex_test s) then
        inl (JsError (lit "Recipe name contains invalid characters"))
      else inr s
  | _ => inl (JsError (lit "Recipe name must be a non-empty string"))
  end.

(** ** getBaseArgs *)

(** [justfile && typeof justfile === "string"]: the parameter is a string or
    [undefined]; the empty string is falsy. *)
Definition getBaseArgs (justfile : option jstring) : list jstring :=
  let args := [lit "--color=never"] in
  match justfile with
  | Some p => if truthy p then args ++ [lit "--justfile"; p] else args
  | None => args
  end.

(** ** formatResult *)

Record outcome : Type := Outcome {
  stdout : jstring;
  stderr : jstring;
  exitCode : Z
}.

(** [`${n}`] for an integer-valued number: its decimal numeral. *)
Definition Z_to_jstring (n : Z) : jstring := lit (pretty n).

Definition formatResult (result : outcome) : jstring :=
  let output := stdout result in
  let output :=
    if truthy (stderr result)
    then output ++ (if truthy output then NL else []) ++ stderr result
    else output in
  let output :=
    if negb (exitCode result =? 0)
    then output ++ NL ++ lit "[Exit code: " ++ Z_to_jstring (exitCode result) ++ lit "]"
    else output in
  if truthy output then output else lit "Command completed successfully".

(** ** execJust: the executor as a machine driven by the events of the child *)

(** What the event loop can deliver to the callbacks [execJust] registers. *)
Inductive proc_event : Type :=
| StdoutData (d : jstring)        (* proc.stdout 'data', as data.toString() *)
| StderrData (d : jstring)        (* proc.stderr 'data' *)
| TimerFires                      (* the setTimeout callback is due *)
| ProcClose (code : option Z)     (* 'close'; the code is null after a signal *)
| ProcError (message : jstring).  (* 'error', with err.message *)

Inductive timer_status : Type := Pending | Fired | Cleared.

Inductive signal : Type := SIGTERM.

(** The variables the callbacks close over, the timer, the signals sent to
    the child and the promise: [settled] is [None] until [resolve] is
    called for the first time. *)
Record exec_state : Type := ExecState {
  st_stdout : jstring;
  st_stderr : jstring;
  st_timedOut : bool;
  st_timer : timer_status;
  st_kills : list signal;
  st_settled : option outcome
}.

Definition exec_init : exec_state :=
  {| st_stdout := []; st_stderr := []; st_timedOut := false;
     st_timer := Pending; st_kills := []; st_settled := None |}.

(** [clearTimeout(timer)] cancels a pending timer and does nothing to one
    that has fired or was cleared. *)
Definition clearTimeout (t : timer_status) : timer_status :=
  match t with
  | Pending => Cleared
  | other => other
  end.

(** [resolve(o)]: only the first call settles the promise. *)
Definition resolve (p : option outcome) (o : outcome) : option outcome :=
  match p with
  | None => Some o
  | Some first => Some first
  end.

(** One callback run.  The timer callback runs at most once and only while
    the timer is pending; it sets [timedOut] and sends SIGTERM.  The close
    and error callbacks clear the timer and resolve. *)
Definition exec_step (st : exec_state) (e : proc_event) : exec_state :=
  match e with
  | StdoutData d =>
      {| st_stdout := st_stdout st ++ d; st_stderr := st_stderr st;
         st_timedOut := st_timedOut st; st_timer := st_timer st;
         st_kills := st_kills st; st_settled := st_settled st |}
  | StderrData d =>
      {| st_stdout := st_stdout st; st_stderr := st_stderr st ++ d;
         st_timedOut := st_timedOut st; st_timer := st_timer st;
         st_kills := st_kills st; st_settled := st_settled st |}
  | TimerFires =>
      match st_timer st with
      | Pending =>
          {| st_stdout := st_stdout st; st_stderr := st_stderr st;
             st_timedOut := true; st_timer := Fired;
             st_kills := st_kills st ++ [SIGTERM]; st_settled := st_settled st |}
      | _ => st
      end
  | ProcClose code =>
      {| st_stdout := st_stdout st; st_stderr := st_stderr st;
         st_timedOut := st_timedOut st; st_timer := clearTimeout (st_timer st);
         st_kills := st_kills st;
         st_settled :=
           resolve (st_settled st)
             (if st_timedOut st
              then {| stdout := st_stdout st;
                      stderr := st_stderr st ++ NL ++ lit "[Process timed out]";
                      exitCode := 124 |}
              else {| stdout := st_stdout st; stderr := st_stderr st;
                      exitCode := default 1 code |}) |}
  | ProcError message =>
      {| st_stdout := st_stdout st; st_stderr := st_stderr st;
         st_timedOut := st_timedOut st; st_timer := clearTimeout (st_timer st);
         st_kills := st_kills st;
         st_settled :=
           resolve (st_settled st)
             {| stdout := []; stderr := message; exitCode := 1 |} |}
  end.

Definition exec_events (st : exec_state) (evs : list proc_event) : exec_state :=
  foldl exec_step st evs.

(** The value the promise of [execJust] resolves to when the child's events
    are [evs]; [None] when no event settles it. *)
Definition execJust_outcome (evs : list proc_event) : option outcome :=
  st_settled (exec_events exec_init evs).

Definition DEFAULT_TIMEOUT : float := 300000%float.

(** The call [spawn("just", args, { cwd: workingDirectory || process.cwd(), .. })]
    together with the delay [execJust] was called with, the one it gives to
    [setTimeout] once [spawn] has returned. *)
Record spawn_call : Type := SpawnCall {
  command : jstring;
  argv : list jstring;
  cwd : jstring;
  timer_delay : float
}.

Definition execJust_spawn (process_cwd : jstring) (args : list jstring)
    (workingDirectory : option jstring) (timeout : option float) : spawn_call :=
  {| command := lit "just";
     argv := args;
     cwd := match workingDirectory with
            | Some d => if truthy d then d else process_cwd
            | None => process_cwd
            end;
     timer_delay := default DEFAULT_TIMEOUT timeout |}.

(** ** Asynchronous code: programs that await the executor *)

(** The body of an [async] function of the source: it returns, throws, or
    awaits a call of [execJust]; it goes on with the outcome when the
    promise of [execJust] is fulfilled and is rejected with it when that
    promise rejects (see [run_prog]). *)
Inductive prog (A : Type) : Type :=
| Ret (a : A)
| Throw (e : thrown)
| AwaitExec (args : list jstring) (workingDirectory : option jstring)
    (timeout : option float) (k : outcome -> prog A).

Arguments Ret {A} a.
Arguments Throw {A} e.
Arguments AwaitExec {A} args workingDirectory timeout k.

Fixpoint prog_bind {A B : Type} (f : A -> prog B) (p : prog A) : prog B :=
  match p with
  | Ret a => f a
  | Throw e => Throw e
  | AwaitExec args wd t k => AwaitExec args wd t (fun o => prog_bind f (k o))
  end.

#[export] Instance prog_mbind : MBind prog := @prog_bind.
#[export] Instance prog_mret : MRet prog := @Ret.

(** [await execJust(args, workingDirectory, timeout)]; the third argument is
    [None] where the call leaves it out.  The node stands for the whole
    call: [run_prog] gives it the three ways the promise can end, fulfilled
    with an outcome, rejected because [spawn] threw, or never settled. *)
Definition execJust (args : list jstring) (workingDirectory : option jstring)
    (timeout : option float) : prog outcome :=
  AwaitExec args workingDirectory timeout Ret.

(** A synchronous call that may throw. *)
Definition call {A : Type} (r : thrown + A) : prog A :=
  match r with
  | inl e => Throw e
  | inr a => Ret a
  end.

(** ** handleTool *)

(** [typeof v === "string" ? v : undefined]. *)
Definition string_or_undefined (v : value) : option jstring :=
  match v with
  | JStr s => Some s
  | _ => None
  end.

(** [l.filter((a) => typeof a === "string")]. *)
Definition filter_strings (l : list value) : list jstring :=
  omap string_or_undefined l.

Definition handleTool (name : jstring) (args : option bag) : prog jstring :=
  let args := default ∅ args in
  let workingDir := string_or_undefined (prop args "working_directory") in
  let justfile := string_or_undefined (prop args "justfile") in
  let baseArgs := getBaseArgs justfile in
  if decide (name = lit "list") then
    result ← execJust (baseArgs ++ [lit "--list"]) workingDir None;
    Ret (formatResult result)
  else if decide (name = lit "run") then
    recipe ← call (validateRecipeName (prop args "recipe"));
    let timeout :=
      match prop args "timeout" with
      | JNum t => t
      | _ => DEFAULT_TIMEOUT
      end in
    let justArgs := baseArgs ++ [recipe] in
    let justArgs :=
      match prop args "args" with
      | JArr elems => justArgs ++ filter_strings elems
      | _ => justArgs
      end in
    result ← execJust justArgs workingDir (Some timeout);
    Ret (formatResult result)
  else if decide (name = lit "show") then
    recipe ← call (validateRecipeName (prop args "recipe"));
    result ← execJust (baseArgs ++ [lit "--show"; recipe]) workingDir None;
    Ret (formatResult result)
  else Throw (JsError (lit "Unknown tool: " ++ name)).

(** ** Running a program on a host *)

(** What [spawn] does with a call.  It throws synchronously (a NUL byte in
    an argument or in the working directory, a working directory that is
    not a directory), or it returns a child, and then the events of the
    child and of the timer follow, in the order the event loop dispatches
    them.  An executable that is missing is of the second kind: [spawn]
    returns and the child emits an error event. *)
Inductive spawn_result : Type :=
| SpawnThrows (e : thrown)
| Spawned (events : list proc_event).

(** The host: what each call of [spawn] results in. *)
Abbreviation host := (spawn_call -> spawn_result).

(** How a promise ends. *)
Inductive completion (A : Type) : Type :=
| Fulfilled (a : A)
| Rejected (e : thrown)
| NeverSettles.

Arguments Fulfilled {A} a.
Arguments Rejected {A} e.
Arguments NeverSettles {A}.

(** The completion of a program and the calls of [spawn] it made, in
    order.  [execJust] calls [spawn] inside the executor of its promise and
    has no [try]: when [spawn] throws, the promise rejects with what was
    thrown, no callback is registered and no timer is started, and the
    [await] throws it on. *)
Fixpoint run_prog {A : Type} (process_cwd : jstring) (os : host) (p : prog A)
    : completion A * list spawn_call :=
  match p with
  | Ret a => (Fulfilled a, [])
  | Throw e => (Rejected e, [])
  | AwaitExec args wd t k =>
      let spawned := execJust_spawn process_cwd args wd t in
      match os spawned with
      | SpawnThrows e => (Rejected e, [spawned])
      | Spawned events =>
          match execJust_outcome events with
          | Some o =>
              let '(c, more) := run_prog process_cwd os (k o) in
              (c, spawned :: more)
          | None => (NeverSettles, [spawned])
          end
      end
  end.

(** ** The CallTool request handler *)

Record request : Type := Request {
  name : jstring;
  arguments : option bag
}.

(** [{ content: [{ type: "text", text }], isError? }]; [isError] is [false]
    when the property is left out. *)
Record response : Type := Response {
  text : jstring;
  isError : bool
}.

(** The handler: [try { .. await handleTool .. } catch (error) { .. }]. *)
Definition callTool (process_cwd : jstring) (os : host) (req : request)
    : completion response * list spawn_call :=
  let '(c, spawned) := run_prog process_cwd os (handleTool (name req) (arguments req)) in
  (match c with
   | Fulfilled result => Fulfilled {| text := result; isError := false |}
   | Rejected error =>
       Fulfilled {| text := lit "Error: " ++ error_message error; isError := true |}
   | NeverSettles => NeverSettles
   end, spawned).

(** ** The vocabulary of the specification *)

Definition all_whitespace (s : jstring) : Prop :=
  Forall (fun c => is_whitespace c = true) s.

Definition starts_with_dash (s : jstring) : Prop :=
  exists rest, s = N_of_ascii "-" :: rest.

(** A letter, a digit, an underscore or a hyphen. *)
Definition name_char (c : N) : Prop :=
  (N_of_ascii "a" <= c <= N_of_ascii "z")%N
  \/ (N_of_ascii "A" <= c <= N_of_ascii "Z")%N
  \/ (N_of_ascii "0" <= c <= N_of_ascii "9")%N
  \/ c = N_of_ascii "_" \/ c = N_of_ascii "-".

(** The whole string is one or more characters of the class. *)
Definition matches_name_pattern (s : jstring) : Prop :=
  s <> [] /\ Forall name_char s.

(** The specification's rule for a recipe name. *)
Definition spec_valid_recipe_name (s : jstring) : Prop :=
  s <> [] /\ ~ all_whitespace s /\ ~ starts_with_dash s /\ matches_name_pattern s.

Definition msg_not_a_name : jstring := lit "Recipe name must be a non-empty string".
Definition msg_leading_dash : jstring := lit "Recipe name cannot start with '-'".
Definition msg_invalid_chars : jstring := lit "Recipe name contains invalid characters".

(** The marker line [\n[Exit code: N]]. *)
Definition exit_marker (n : Z) : jstring :=
  NL ++ lit "[Exit code: " ++ Z_to_jstring n ++ lit "]".

Definition placeholder : jstring := lit "Command completed successfully".

(** The specification's formatting rule: stdout, then stderr (after one
    newline when both are present), then the marker when the exit code is
    not zero; the placeholder when all of that is empty. *)
Definition spec_separator (out err : jstring) : jstring :=
  if decide (out <> [] /\ err <> []) then NL else [].

Definition spec_combined_text (out err : jstring) (code : Z) : jstring :=
  let marker := if decide (code = 0) then [] else exit_marker code in
  out ++ spec_separator out err ++ err ++ marker.

Definition spec_formatted_text (out err : jstring) (code : Z) : jstring :=
  let combined := spec_combined_text out err code in
  if decide (combined = []) then placeholder else combined.

(** ** Reading an event trace *)

(** The events that call [resolve]. *)
Definition settles (e : proc_event) : bool :=
  match e with
  | ProcClose _ | ProcError _ => true
  | _ => false
  end.

(** A stretch of events during which the child neither closes nor errors. *)
Definition quiet (evs : list proc_event) : bool :=
  forallb (fun e => negb (settles e)) evs.

Definition is_timer (e : proc_event) : bool :=
  match e with
  | TimerFires => true
  | _ => false
  end.

(** The timer comes due somewhere in [evs]. *)
Definition timer_fires_in (evs : list proc_event) : bool := existsb is_timer evs.

(** Everything the child wrote to stdout, in arrival order. *)
Fixpoint stdout_of (evs : list proc_event) : jstring :=
  match evs with
  | [] => []
  | StdoutData d :: rest => d ++ stdout_of rest
  | _ :: rest => stdout_of rest
  end.

Fixpoint stderr_of (evs : list proc_event) : jstring :=
  match evs with
  | [] => []
  | StderrData d :: rest => d ++ stderr_of rest
  | _ :: rest => stderr_of rest
  end.

Definition timeout_marker : jstring := NL ++ lit "[Process timed out]".

(** The reading of exit code 124 as a sentinel: an outcome carries it
    exactly when the timer callback ran and set [timedOut]. *)
Definition sentinel_124 (evs : list proc_event) : Prop :=
  forall o, execJust_outcome evs = Some o ->
    (exitCode o = 124 <-> st_timedOut (exec_events exec_init evs) = true).

(** The timeout rule read over every execution: whenever the timer comes
    due while the child has neither closed nor errored, the outcome has
    exit code 124 and a stderr that ends with the marker line. *)
Definition timeout_always_124 (evs : list proc_event) : Prop :=
  forall pre rest o,
    evs = pre ++ TimerFires :: rest ->
    quiet pre = true ->
    execJust_outcome evs = Some o ->
    exitCode o = 124 /\ exists captured, stderr o = captured ++ timeout_marker.

(** The executor read as never throwing, for every invocation on every
    host. *)
Definition executor_never_throws : Prop :=
  forall (process_cwd : jstring) (os : host) (args : list jstring)
         (wd : option jstring) (t : option float) (e : thrown),
    fst (run_prog process_cwd os (execJust args wd t)) <> Rejected e.

(** ** Reading a request *)

(** The continuation every operation ends with: [return formatResult(result)]. *)
Definition then_format : outcome -> prog jstring :=
  fun result => Ret (formatResult result).

(** The names in the registry [tools]. *)
Definition known_tools : list jstring := [lit "list"; lit "run"; lit "show"].

(** The pass-through arguments of [run]: the string elements of [args]. *)
Definition extra_args (args : bag) : list jstring :=
  match prop args "args" with
  | JArr elems => filter_strings elems
  | _ => []
  end.

(** The timeout [run] asks for. *)
Definition requested_timeout (args : bag) : float :=
  match prop args "timeout" with
  | JNum t => t
  | _ => DEFAULT_TIMEOUT
  end.

(** The argument bag [{recipe: "build", args: ["--release"],
    working_directory: "/repo"}]. *)
Definition build_release : bag :=
  {[ lit "recipe" := JStr (lit "build");
     lit "args" := JArr [JStr (lit "--release")];
     lit "working_directory" := JStr (lit "/repo") ]}.

(** ** The registry [tools] and the ListTools handler *)

(** The JSON-schema types the registry uses. *)
Inductive schema_type : Type :=
| TString
| TNumber
| TArrayOf (items : schema_type).

Record property_schema : Type := PropertySchema {
  prop_name : jstring;
  prop_type : schema_type;
  prop_description : jstring
}.

(** One entry of [tools]; every [inputSchema] has [type: "object"]. *)
Record tool : Type := Tool {
  tool_name : jstring;
  tool_description : jstring;
  tool_properties : list property_schema;
  tool_required : list jstring
}.

Definition tools : list tool :=
  [ {| tool_name := lit "list";
       tool_description := lit "List available recipes in the justfile";
       tool_properties :=
         [ PropertySchema (lit "working_directory") TString
             (lit "Directory containing the justfile");
           PropertySchema (lit "justfile") TString
             (lit "Path to the justfile (optional)") ];
       tool_required := [] |};
    {| tool_name := lit "run";
       tool_description := lit "Run a recipe from the justfile";
       tool_properties :=
         [ PropertySchema (lit "recipe") TString (lit "Recipe name to run");
           PropertySchema (lit "args") (TArrayOf TString)
             (lit "Arguments to pass to the recipe");
           PropertySchema (lit "working_directory") TString
             (lit "Directory containing the justfile");
           PropertySchema (lit "justfile") TString
             (lit "Path to the justfile (optional)");
           PropertySchema (lit "timeout") TNumber
             (lit "Timeout in milliseconds (default: 300000)") ];
       tool_required := [lit "recipe"] |};
    {| tool_name := lit "show";
       tool_description := lit "Show the definition of a recipe";
       tool_properties :=
         [ PropertySchema (lit "recipe") TString (lit "Recipe name to show");
           PropertySchema (lit "working_directory") TString
             (lit "Directory containing the justfile");
           PropertySchema (lit "justfile") TString
             (lit "Path to the justfile (optional)") ];
       tool_required := [lit "recipe"] |} ].

(** The ListTools handler answers [{ tools }]. *)
Definition listTools : list tool := tools.

(** The test [handleTool] applies to a value before it uses it under a
    declared type: [typeof v === "string"], [typeof v === "number"],
    [Array.isArray(v)]. *)
Definition accepted_as (ty : schema_type) (v : value) : bool :=
  match ty, v with
  | TString, JStr _ => true
  | TNumber, JNum _ => true
  | TArrayOf _, JArr _ => true
  | _, _ => false
  end.

(** The working directory a request asks for, if any. *)
Definition requested_cwd (process_cwd : jstring) (args : bag) : jstring :=
  match prop args "working_directory" with
  | JStr d => if decide (d = []) then process_cwd else d
  | _ => process_cwd
  end.

(** ** Proof steps *)

(** Decide which branch of the [switch] a name takes. *)
Ltac tool_name :=
  repeat match goal with
  | |- context [decide (?a = ?b)] =>
      let H := fresh "Hname" in
      destruct (decide (a = b)) as [H | H];
      [ try (by vm_compute in H); try (exfalso; set_solver)
      | try (by destruct H) ]
  end.

(** Two different literals. *)
Ltac lit_neq :=
  let H := fresh in
  intros H; vm_compute in H; discriminate H.

(** Go through the entries of a list given in full. *)
Ltac each_member H :=
  repeat (apply elem_of_cons in H as [-> | H]);
  [.. | by apply elem_of_nil in H].

(** * Properties *)

#[local] Set Warnings "-clear-no-such-hyp".

(** ** Recipe names *)

Lemma trimStart_nil (s : jstring) : trimStart s = [] <-> all_whitespace s.
Proof.
  unfold all_whitespace. induction s as [|c s IH]; simpl.
  - split; [constructor | reflexivity].
  - destruct (is_whitespace c) eqn:Hc.
    + rewrite IH. split; [intros H; by constructor | by inversion 1].
    + split; [discriminate | inversion 1; congruence].
Qed.

Lemma trimStart_head (s : jstring) c r :
  trimStart s = c :: r -> is_whitespace c = false.
Proof.
  induction s as [|d s IH]; simpl; [discriminate |].
  destruct (is_whitespace d) eqn:Hd; [exact IH |].
  intros [= -> _]. exact Hd.
Qed.

Lemma trim_falsy (s : jstring) : truthy (trim s) = false <-> all_whitespace s.
Proof.
  assert (Hnil : forall t : jstring, truthy t = false <-> t = []) by (by intros []).
  rewrite Hnil. unfold trim, trimEnd. split.
  - intros H. apply (f_equal reverse) in H. rewrite reverse_involutive in H.
    apply trimStart_nil in H. unfold all_whitespace in H.
    rewrite Forall_reverse in H.
    destruct (trimStart s) as [|c r] eqn:Hs; [by apply trimStart_nil |].
    apply trimStart_head in Hs. inversion H; simpl in *; congruence.
  - intros H. apply trimStart_nil in H. by rewrite H.
Qed.

Lemma startsWith_dash_spec (s : jstring) :
  startsWith_dash s = true <-> starts_with_dash s.
Proof.
  unfold starts_with_dash. destruct s as [|c r]; simpl.
  - split; [discriminate | intros [? ?]; discriminate].
  - rewrite N.eqb_eq. split.
    + intros ->. by exists r.
    + by intros [? [= -> _]].
Qed.

Lemma in_name_class_spec (c : N) : in_name_class c = true <-> name_char c.
Proof.
  unfold in_name_class, name_char. simpl N_of_ascii.
  rewrite !orb_true_iff, !andb_true_iff, !N.leb_le, !N.eqb_eq. tauto.
Qed.

Lemma name_regex_test_spec (s : jstring) :
  name_regex_test s = true <-> matches_name_pattern s.
Proof.
  unfold name_regex_test, matches_name_pattern.
  rewrite andb_true_iff, forallb_forall, Forall_forall.
  split; intros [Hne Hall]; (split; [by destruct s |]);
    intros c Hc; apply in_name_class_spec, Hall; by apply list_elem_of_In.
Qed.

Lemma validateRecipeName_cases (s : jstring) :
  (all_whitespace s /\ validateRecipeName (JStr s) = inl (JsError msg_not_a_name))
  \/ (~ all_whitespace s /\ starts_with_dash s
      /\ validateRecipeName (JStr s) = inl (JsError msg_leading_dash))
  \/ (~ all_whitespace s /\ ~ starts_with_dash s /\ ~ matches_name_pattern s
      /\ validateRecipeName (JStr s) = inl (JsError msg_invalid_chars))
  \/ (~ all_whitespace s /\ ~ starts_with_dash s /\ matches_name_pattern s
      /\ validateRecipeName (JStr s) = inr s).
Proof.
  unfold validateRecipeName.
  destruct (truthy (trim s)) eqn:Ht; simpl.
  2:{ left. split; [by apply trim_falsy | reflexivity]. }
  assert (Hws : ~ all_whitespace s).
  { intros H. apply trim_falsy in H. congruence. }
  right.
  destruct (startsWith_dash s) eqn:Hd.
  { left. split; [done | split; [by apply startsWith_dash_spec | reflexivity]]. }
  assert (Hnd : ~ starts_with_dash s).
  { intros H. apply startsWith_dash_spec in H. congruence. }
  right.
  destruct (name_regex_test s) eqn:Hr; simpl.
  - right. repeat split; try done. all: by apply name_regex_test_spec.
  - left. repeat split; try done.
    intros H. apply name_regex_test_spec in H. congruence.
Qed.

Lemma validation_messages_distinct :
  msg_not_a_name <> msg_leading_dash
  /\ msg_not_a_name <> msg_invalid_chars
  /\ msg_leading_dash <> msg_invalid_chars.
Proof. repeat split; intros H; vm_compute in H; discriminate. Qed.

Lemma all_whitespace_no_pattern (s : jstring) :
  all_whitespace s -> ~ matches_name_pattern s.
Proof.
  intros Hws [Hne Hall]. destruct s as [|c r]; [done |].
  inversion Hws as [|? ? Hc _]; inversion Hall as [|? ? Hn _]; subst.
  apply in_name_class_spec in Hn. revert Hc Hn.
  unfold is_whitespace, in_name_class.
  rewrite !orb_true_iff, !andb_true_iff, !N.leb_le, !N.eqb_eq. lia.
Qed.

(** C1. For every value [v], [validateRecipeName v] returns the name [s]
    exactly when [v] is the string [s] and [s] is non-empty, not made of
    whitespace only, does not start with a hyphen and consists of one or
    more characters of [[a-zA-Z0-9_-]]; every other value makes it throw an
    [Error], and the message tells the rule that was violated: the first
    message for a value that is not a string or is blank, the second for a
    leading hyphen, the third for a character outside the class. *)
Theorem validateRecipeName_correct (v : value) :
  (forall s, validateRecipeName v = inr s <-> v = JStr s /\ spec_valid_recipe_name s)
  /\ (~ (exists s, v = JStr s /\ spec_valid_recipe_name s) <->
      exists m, validateRecipeName v = inl (JsError m)
                /\ m ∈ [msg_not_a_name; msg_leading_dash; msg_invalid_chars])
  /\ (validateRecipeName v = inl (JsError msg_not_a_name) <->
      forall s, v = JStr s -> all_whitespace s)
  /\ (validateRecipeName v = inl (JsError msg_leading_dash) <->
      exists s, v = JStr s /\ ~ all_whitespace s /\ starts_with_dash s)
  /\ (validateRecipeName v = inl (JsError msg_invalid_chars) <->
      exists s, v = JStr s /\ ~ all_whitespace s /\ ~ starts_with_dash s
                /\ ~ matches_name_pattern s).
Proof.
  destruct validation_messages_distinct as (D12 & D13 & D23).
  destruct (match v with JStr s => Some s | _ => None end) as [s0|] eqn:Hv.
  2:{ assert (Hns : forall s, v <> JStr s) by (intros s ->; discriminate).
      assert (validateRecipeName v = inl (JsError msg_not_a_name)) as ->
        by (by destruct v).
      split; [| split; [| split; [| split]]].
      - intros s. split; [discriminate | intros [Hs _]; by destruct (Hns s)].
      - split.
        + intros _. exists msg_not_a_name. split; [done | set_solver].
        + intros _ (s & Hs & _). by destruct (Hns s).
      - split; [intros _ s Hs; by destruct (Hns s) | done].
      - split; [intros [= ?]; done | intros (s & Hs & _); by destruct (Hns s)].
      - split; [intros [= ?]; done | intros (s & Hs & _); by destruct (Hns s)]. }
  assert (v = JStr s0) as -> by (destruct v; congruence). clear Hv.
  unfold spec_valid_recipe_name.
  pose proof (all_whitespace_no_pattern s0) as Hwp.
  assert (Hnil : ~ all_whitespace s0 -> s0 <> []).
  { intros H ->. apply H. constructor. }
  destruct (validateRecipeName_cases s0)
    as [(Hws & ->) | [(Hws & Hd & ->) | [(Hws & Hd & Hp & ->) | (Hws & Hd & Hp & ->)]]].
  - split; [| split; [| split; [| split]]].
    + intros s. split; [discriminate | naive_solver].
    + split; [| naive_solver].
      intros _. exists msg_not_a_name. split; [done | set_solver].
    + naive_solver.
    + split; [intros [= ?]; done | naive_solver].
    + split; [intros [= ?]; done | naive_solver].
  - split; [| split; [| split; [| split]]].
    + intros s. split; [discriminate | naive_solver].
    + split; [| naive_solver].
      intros _. exists msg_leading_dash. split; [done | set_solver].
    + split; [intros [= ?]; done | naive_solver].
    + naive_solver.
    + split; [intros [= ?]; done | naive_solver].
  - split; [| split; [| split; [| split]]].
    + intros s. split; [discriminate | naive_solver].
    + split; [| naive_solver].
      intros _. exists msg_invalid_chars. split; [done | set_solver].
    + split; [intros [= ?]; done | naive_solver].
    + split; [intros [= ?]; done | naive_solver].
    + naive_solver.
  - split; [| split; [| split; [| split]]].
    + intros s. split; [intros [= <-]; naive_solver | naive_solver].
    + split; [naive_solver | intros (m & [=] & _)].
    + split; [discriminate | naive_solver].
    + split; [discriminate | naive_solver].
    + split; [discriminate | naive_solver].
Qed.

(** ** The formatter *)

Lemma exit_marker_cons (n : Z) : exists rest, exit_marker n = 10%N :: rest.
Proof. unfold exit_marker, NL. simpl. eauto. Qed.

Lemma separator_truthy (out err : jstring) :
  spec_separator out err = if truthy out && truthy err then NL else [].
Proof. unfold spec_separator. destruct out, err; case_decide; naive_solver. Qed.

Lemma or_placeholder (t : jstring) :
  (if decide (t = []) then placeholder else t)
  = if truthy t then t else placeholder.
Proof. by destruct t. Qed.

(** The text [formatResult] builds before it falls back to the placeholder. *)
Lemma formatResult_combined (out err : jstring) (code : Z) :
  formatResult (Outcome out err code)
  = if truthy (spec_combined_text out err code)
    then spec_combined_text out err code
    else placeholder.
Proof.
  unfold formatResult, spec_combined_text. rewrite separator_truthy.
  cbn [stdout stderr exitCode].
  change (NL ++ lit "[Exit code: " ++ Z_to_jstring code ++ lit "]")
    with (exit_marker code).
  change (lit "Command completed successfully") with placeholder.
  destruct (Z.eqb_spec code 0) as [Hc | Hc];
    [rewrite (decide_True _ _ Hc) | rewrite (decide_False _ _ Hc)];
    cbn [negb]; destruct (truthy err) eqn:He;
    rewrite ?andb_true_r, ?andb_false_r, ?app_nil_r, <- ?app_assoc;
    try reflexivity.
  all: destruct err; [| discriminate]; cbn [app]; by rewrite ?app_nil_r.
Qed.

Lemma combined_empty (out err : jstring) (code : Z) :
  spec_combined_text out err code = [] <-> out = [] /\ err = [] /\ code = 0.
Proof.
  unfold spec_combined_text, spec_separator.
  destruct (exit_marker_cons code) as [m Hm].
  split.
  - intros H. apply app_eq_nil in H as [-> H].
    apply app_eq_nil in H as [_ H]. apply app_eq_nil in H as [-> H].
    case_decide; [done |]. by rewrite Hm in H.
  - intros (-> & -> & ->). by rewrite decide_False by naive_solver.
Qed.

(** C3. For every outcome, the formatted text is stdout, then stderr, with
    one newline between them when both are non-empty (so a separator only
    ever follows a non-empty stdout), then, exactly when the exit code is
    not zero, a newline and the marker [[Exit code: N]]; when that text is
    empty, which happens exactly for no output and exit code zero, the
    placeholder is returned instead. *)
Theorem formatResult_spec (out err : jstring) (code : Z) :
  formatResult (Outcome out err code) = spec_formatted_text out err code
  /\ (spec_separator out err = NL \/ spec_separator out err = [])
  /\ (spec_separator out err = NL <-> out <> [] /\ err <> [])
  /\ (spec_combined_text out err code = [] <-> out = [] /\ err = [] /\ code = 0).
Proof.
  split; [| split; [| split]].
  - unfold spec_formatted_text. rewrite or_placeholder. apply formatResult_combined.
  - unfold spec_separator. case_decide; auto.
  - unfold spec_separator. case_decide; [done |]. split; [discriminate | done].
  - apply combined_empty.
Qed.

(** Both streams and a zero exit code: the two texts with one newline
    between them and no marker. *)
Lemma formatResult_both_streams (out err : jstring) :
  out <> [] -> err <> [] ->
  formatResult (Outcome out err 0) = out ++ NL ++ err.
Proof.
  intros Ho He. unfold formatResult. cbn [stdout stderr exitCode Z.eqb negb].
  destruct out as [|a out], err as [|b err]; done.
Qed.

(** Without stderr nothing is appended to stdout. *)
Lemma formatResult_stdout_only (out : jstring) :
  out <> [] -> formatResult (Outcome out [] 0) = out.
Proof. intros Ho. by destruct out. Qed.

(** C10. With empty stdout, empty stderr and an exit code [n] other than
    zero, the formatted text is exactly a newline followed by
    [[Exit code: n]]: it begins with the newline and is not the
    placeholder. *)
Theorem formatResult_only_exit_code (n : Z) :
  n <> 0 ->
  formatResult (Outcome [] [] n) = NL ++ lit "[Exit code: " ++ Z_to_jstring n ++ lit "]"
  /\ (exists rest, formatResult (Outcome [] [] n) = 10%N :: rest)
  /\ formatResult (Outcome [] [] n) <> placeholder.
Proof.
  intros Hn. unfold formatResult. cbn [stdout stderr exitCode truthy].
  destruct (Z.eqb_spec n 0) as [? | _]; [done |]. cbn [negb app].
  change (NL ++ lit "[Exit code: " ++ Z_to_jstring n ++ lit "]")
    with (exit_marker n).
  destruct (exit_marker_cons n) as [m ->]. cbn [truthy].
  split; [reflexivity | split; [eauto | discriminate]].
Qed.

(** The claim at exit code 2. *)
Lemma formatResult_only_exit_code_witness :
  formatResult (Outcome [] [] 2) = NL ++ lit "[Exit code: 2]".
Proof.
  pose proof (formatResult_only_exit_code 2) as H.
  destruct H as [H _]; [lia | exact H].
Defined.

(** ** The executor *)

Lemma exec_events_app (st : exec_state) (a b : list proc_event) :
  exec_events st (a ++ b) = exec_events (exec_events st a) b.
Proof. apply foldl_app. Qed.

Lemma exec_events_cons (st : exec_state) (e : proc_event) (evs : list proc_event) :
  exec_events st (e :: evs) = exec_events (exec_step st e) evs.
Proof. reflexivity. Qed.

(** The buffers only ever grow by the data events. *)
Lemma exec_events_stdout (evs : list proc_event) (st : exec_state) :
  st_stdout (exec_events st evs) = st_stdout st ++ stdout_of evs.
Proof.
  revert st. induction evs as [|e evs IH]; intros st.
  - by rewrite app_nil_r.
  - rewrite exec_events_cons, IH.
    destruct e; simpl; rewrite <- ?app_assoc; try done.
    by destruct (st_timer st).
Qed.

Lemma exec_events_stderr (evs : list proc_event) (st : exec_state) :
  st_stderr (exec_events st evs) = st_stderr st ++ stderr_of evs.
Proof.
  revert st. induction evs as [|e evs IH]; intros st.
  - by rewrite app_nil_r.
  - rewrite exec_events_cons, IH.
    destruct e; simpl; rewrite <- ?app_assoc; try done.
    by destruct (st_timer st).
Qed.

(** Once settled, the promise keeps its value. *)
Lemma settled_stable (evs : list proc_event) (st : exec_state) (o : outcome) :
  st_settled st = Some o -> st_settled (exec_events st evs) = Some o.
Proof.
  revert st. induction evs as [|e evs IH]; intros st Hs; [done |].
  rewrite exec_events_cons. apply IH.
  destruct e; simpl; try done; [by destruct (st_timer st) | |]; by rewrite Hs.
Qed.

Lemma quiet_unsettled (evs : list proc_event) (st : exec_state) :
  quiet evs = true -> st_settled (exec_events st evs) = st_settled st.
Proof.
  revert st. induction evs as [|e evs IH]; intros st Hq; [done |].
  simpl in Hq. apply andb_true_iff in Hq as [He Hq].
  rewrite exec_events_cons, IH by done.
  destruct e; try done. simpl. by destruct (st_timer st).
Qed.

(** A timer that is no longer pending never runs its callback. *)
Lemma spent_timer (evs : list proc_event) (st : exec_state) :
  st_timer st <> Pending ->
  let st' := exec_events st evs in
  st_timedOut st' = st_timedOut st
  /\ st_timer st' = st_timer st
  /\ st_kills st' = st_kills st.
Proof.
  revert st. induction evs as [|e evs IH]; intros st Ht; [done |].
  cbn zeta. rewrite exec_events_cons.
  assert (Hstep : st_timedOut (exec_step st e) = st_timedOut st
                  /\ st_timer (exec_step st e) = st_timer st
                  /\ st_kills (exec_step st e) = st_kills st).
  { destruct e; simpl; try done; by destruct (st_timer st) eqn:E. }
  destruct Hstep as (H1 & H2 & H3).
  destruct (IH (exec_step st e)) as (I1 & I2 & I3); [congruence |].
  cbn zeta in I1, I2, I3. by rewrite I1, I2, I3.
Qed.

(** While the child is quiet, a pending timer fires with the first
    [TimerFires] and nothing else touches it. *)
Lemma quiet_timer (evs : list proc_event) (st : exec_state) :
  quiet evs = true -> st_timer st = Pending -> st_timedOut st = false ->
  let st' := exec_events st evs in
  st_timedOut st' = timer_fires_in evs
  /\ st_timer st' = (if timer_fires_in evs then Fired else Pending)
  /\ st_kills st' = st_kills st ++ (if timer_fires_in evs then [SIGTERM] else []).
Proof.
  revert st. induction evs as [|e evs IH]; intros st Hq Ht Ho.
  { simpl. by rewrite app_nil_r. }
  simpl in Hq. apply andb_true_iff in Hq as [He Hq].
  cbn zeta. rewrite exec_events_cons.
  destruct e; try done.
  1,2: change (timer_fires_in (_ :: evs)) with (timer_fires_in evs).
  { exact (IH (exec_step st (StdoutData d)) Hq Ht Ho). }
  { exact (IH (exec_step st (StderrData d)) Hq Ht Ho). }
  change (timer_fires_in (TimerFires :: evs)) with true.
  remember (exec_step st TimerFires) as fired eqn:Hf.
  simpl in Hf. rewrite Ht in Hf.
  destruct (spent_timer evs fired) as (S1 & S2 & S3); [by subst fired |].
  cbn zeta in S1, S2, S3. rewrite S1, S2, S3. by subst fired.
Qed.

(** The outcome when the close event settles the promise. *)
Lemma outcome_on_close (pre rest : list proc_event) (code : option Z) :
  quiet pre = true ->
  execJust_outcome (pre ++ ProcClose code :: rest) =
    Some (if timer_fires_in pre
          then Outcome (stdout_of pre) (stderr_of pre ++ timeout_marker) 124
          else Outcome (stdout_of pre) (stderr_of pre) (default 1 code)).
Proof.
  intros Hq. unfold execJust_outcome.
  rewrite exec_events_app, exec_events_cons.
  apply settled_stable.
  destruct (quiet_timer pre exec_init Hq eq_refl eq_refl) as (H1 & _).
  cbn zeta in H1.
  pose proof (quiet_unsettled pre exec_init Hq) as H2.
  pose proof (exec_events_stdout pre exec_init) as H3.
  pose proof (exec_events_stderr pre exec_init) as H4.
  simpl in H2, H3, H4. simpl. rewrite H1, H2, H3, H4.
  by destruct (timer_fires_in pre).
Qed.

(** The outcome when the error event settles the promise. *)
Lemma outcome_on_error (pre rest : list proc_event) (message : jstring) :
  quiet pre = true ->
  execJust_outcome (pre ++ ProcError message :: rest) = Some (Outcome [] message 1).
Proof.
  intros Hq. unfold execJust_outcome.
  rewrite exec_events_app, exec_events_cons.
  apply settled_stable. simpl.
  by rewrite (quiet_unsettled pre exec_init Hq).
Qed.

(** The promise is settled exactly when the child closed or errored. *)
Lemma unsettled_iff_quiet (evs : list proc_event) (st : exec_state) :
  st_settled (exec_events st evs) = None <-> st_settled st = None /\ quiet evs = true.
Proof.
  revert st. induction evs as [|e evs IH]; intros st; [naive_solver |].
  rewrite exec_events_cons, IH. simpl quiet. rewrite andb_true_iff.
  destruct e; simpl; try tauto.
  - destruct (st_timer st); simpl; tauto.
  - destruct (st_settled st); simpl; naive_solver.
  - destruct (st_settled st); simpl; naive_solver.
Qed.

Lemma execJust_unsettled_iff (evs : list proc_event) :
  execJust_outcome evs = None <-> quiet evs = true.
Proof. unfold execJust_outcome. rewrite unsettled_iff_quiet. simpl. tauto. Qed.

(** Both callbacks that resolve clear the timer first. *)
Lemma settled_timer_not_pending (evs : list proc_event) (st : exec_state) :
  (st_settled st <> None -> st_timer st <> Pending) ->
  st_settled (exec_events st evs) <> None ->
  st_timer (exec_events st evs) <> Pending.
Proof.
  revert st. induction evs as [|e evs IH]; intros st Hinv; [done |].
  rewrite exec_events_cons. apply IH.
  destruct e; simpl; try done.
  - destruct (st_timer st) eqn:E; simpl; try done; by rewrite E.
  - intros _. by destruct (st_timer st).
  - intros _. by destruct (st_timer st).
Qed.

Lemma stdout_of_app (a b : list proc_event) :
  stdout_of (a ++ b) = stdout_of a ++ stdout_of b.
Proof.
  induction a as [|e a IH]; [done |].
  destruct e; simpl; rewrite ?IH, <- ?app_assoc; done.
Qed.

Lemma stderr_of_app (a b : list proc_event) :
  stderr_of (a ++ b) = stderr_of a ++ stderr_of b.
Proof.
  induction a as [|e a IH]; [done |].
  destruct e; simpl; rewrite ?IH, <- ?app_assoc; done.
Qed.

(** C2, as stated, fails: the timer comes due while the child is running,
    SIGTERM cannot be delivered and the child emits an error event; the
    error callback settles the promise with exit code 1, the error's
    message as stderr and no marker line. *)
Lemma timeout_always_124_fails :
  ~ timeout_always_124
      [StdoutData (lit "x"); TimerFires; ProcError (lit "kill EPERM"); ProcClose None].
Proof.
  intros H.
  destruct (H [StdoutData (lit "x")] [ProcError (lit "kill EPERM"); ProcClose None]
              (Outcome [] (lit "kill EPERM") 1) eq_refl eq_refl eq_refl) as [H1 _].
  discriminate H1.
Qed.

(** C2, amended. When the timer comes due while the child has neither
    closed nor errored and the close event then delivers the outcome, the
    outcome has exit code 124, the captured stdout, and the captured stderr
    followed by the marker line; when an error event comes first instead,
    the outcome is the error's, exit code 1 and no marker.  When the child
    closes before the timer comes due, the timer is cleared, no signal is
    ever sent and the outcome carries the child's own status.  In every
    execution, once the promise is settled the timer is not pending. *)
Theorem timeout_race (pre mid rest : list proc_event) (code : option Z)
    (message : jstring) :
  quiet pre = true ->
  quiet mid = true ->
  execJust_outcome (pre ++ TimerFires :: mid ++ ProcClose code :: rest)
    = Some (Outcome (stdout_of (pre ++ mid))
                    (stderr_of (pre ++ mid) ++ NL ++ lit "[Process timed out]")
                    124)
  /\ (timer_fires_in pre = false ->
      let st := exec_events exec_init (pre ++ ProcClose code :: rest) in
      st_timer st = Cleared
      /\ st_kills st = []
      /\ st_timedOut st = false
      /\ st_settled st
         = Some (Outcome (stdout_of pre) (stderr_of pre) (default 1 code)))
  /\ (forall evs, execJust_outcome evs <> None ->
      st_timer (exec_events exec_init evs) <> Pending)
  /\ execJust_outcome (pre ++ TimerFires :: mid ++ ProcError message :: rest)
     = Some (Outcome [] message 1).
Proof.
  intros Hpre Hmid.
  assert (Hq : quiet (pre ++ TimerFires :: mid) = true).
  { unfold quiet in *. rewrite forallb_app. simpl. by rewrite Hpre, Hmid. }
  split; [| split; [| split]].
  - replace (pre ++ TimerFires :: mid ++ ProcClose code :: rest)
      with ((pre ++ TimerFires :: mid) ++ ProcClose code :: rest)
      by (by rewrite <- app_assoc).
    rewrite outcome_on_close by done.
    assert (timer_fires_in (pre ++ TimerFires :: mid) = true) as ->.
    { unfold timer_fires_in. rewrite existsb_app. simpl. apply orb_true_r. }
    by rewrite !stdout_of_app, !stderr_of_app.
  - intros Hno. cbn zeta.
    pose proof (outcome_on_close pre rest code Hpre) as Hout.
    rewrite Hno in Hout. unfold execJust_outcome in Hout.
    rewrite exec_events_app, exec_events_cons in *.
    destruct (quiet_timer pre exec_init Hpre eq_refl eq_refl) as (Q1 & Q2 & Q3).
    cbn zeta in Q1, Q2, Q3. rewrite Hno in Q1, Q2, Q3.
    remember (exec_step (exec_events exec_init pre) (ProcClose code)) as closed eqn:Hc.
    destruct (spent_timer rest closed) as (S1 & S2 & S3).
    { subst closed. simpl. by rewrite Q2. }
    cbn zeta in S1, S2, S3. rewrite S1, S2, S3, Hout.
    subst closed. simpl. by rewrite Q1, Q2, Q3.
  - intros evs. by apply settled_timer_not_pending.
  - replace (pre ++ TimerFires :: mid ++ ProcError message :: rest)
      with ((pre ++ TimerFires :: mid) ++ ProcError message :: rest)
      by (by rewrite <- app_assoc).
    by apply outcome_on_error.
Qed.

(** A child that outlives the timer (output, the timer, more output after
    the signal, then the close event), and the same child closing before
    the timer comes due. *)
Lemma timeout_race_witness :
  execJust_outcome
    ([StdoutData (lit "a")] ++ TimerFires :: [StderrData (lit "b")]
       ++ ProcClose None :: [])
  = Some (Outcome (lit "a") (lit "b" ++ NL ++ lit "[Process timed out]") 124)
  /\ st_timer (exec_events exec_init ([StdoutData (lit "a")] ++ ProcClose None :: []))
     = Cleared.
Proof.
  pose proof (timeout_race [StdoutData (lit "a")] [StderrData (lit "b")] []
                None [] eq_refl eq_refl) as (Hfired & Hclosed & _).
  split; [exact Hfired | exact (proj1 (Hclosed eq_refl))].
Defined.

Lemma run_prog_execJust (process_cwd : jstring) (os : host)
    (args : list jstring) (wd : option jstring) (t : option float) :
  run_prog process_cwd os (execJust args wd t) =
    match os (execJust_spawn process_cwd args wd t) with
    | SpawnThrows e => (Rejected e, [execJust_spawn process_cwd args wd t])
    | Spawned events =>
        match execJust_outcome events with
        | Some o => (Fulfilled o, [execJust_spawn process_cwd args wd t])
        | None => (NeverSettles, [execJust_spawn process_cwd args wd t])
        end
    end.
Proof.
  unfold execJust. simpl.
  destruct (os _) as [e | events]; [done |]. by destruct (execJust_outcome _).
Qed.

(** C4, as stated, fails: the executor does throw for some invocations.
    When [spawn] itself throws (here for a working directory that is not a
    directory) the promise of [execJust] rejects with that error. *)
Lemma executor_never_throws_fails : ~ executor_never_throws.
Proof.
  intros H.
  apply (H (lit "/home") (fun _ => SpawnThrows (JsError (lit "spawn ENOTDIR")))
           [lit "--color=never"; lit "--list"] (Some (lit "/etc/hosts")) None
           (JsError (lit "spawn ENOTDIR"))).
  reflexivity.
Qed.

(** C4, amended. For every invocation in which [spawn] returns a child, the
    executor never throws.  When the child cannot be started, so that its
    error event is what settles the promise, the promise is fulfilled with
    exit code 1, empty stdout and the error's message as stderr. *)
Theorem execJust_spawn_failure (process_cwd : jstring) (os : host)
    (args : list jstring) (wd : option jstring) (t : option float)
    (pre rest : list proc_event) (message : jstring) :
  quiet pre = true ->
  os (execJust_spawn process_cwd args wd t) = Spawned (pre ++ ProcError message :: rest) ->
  execJust_outcome (pre ++ ProcError message :: rest) = Some (Outcome [] message 1)
  /\ fst (run_prog process_cwd os (execJust args wd t)) = Fulfilled (Outcome [] message 1)
  /\ (forall (os' : host) (events : list proc_event) (e : thrown),
        os' (execJust_spawn process_cwd args wd t) = Spawned events ->
        fst (run_prog process_cwd os' (execJust args wd t)) <> Rejected e).
Proof.
  intros Hq Hos. split; [by apply outcome_on_error | split].
  - by rewrite run_prog_execJust, Hos, outcome_on_error.
  - intros os' events e Hos'. rewrite run_prog_execJust, Hos'.
    by destruct (execJust_outcome _).
Qed.

(** The executable is missing: [spawn] returns and the error event comes
    first. *)
Lemma execJust_spawn_failure_witness :
  fst (run_prog (lit "/home")
         (fun _ => Spawned [ProcError (lit "spawn just ENOENT"); ProcClose (Some (-2))])
         (execJust [lit "--color=never"; lit "--list"] None None))
  = Fulfilled (Outcome [] (lit "spawn just ENOENT") 1).
Proof.
  exact (proj1 (proj2 (execJust_spawn_failure (lit "/home")
           (fun _ => Spawned [ProcError (lit "spawn just ENOENT"); ProcClose (Some (-2))])
           [lit "--color=never"; lit "--list"] None None
           [] [ProcClose (Some (-2))] (lit "spawn just ENOENT") eq_refl eq_refl))).
Defined.

(** C8, as stated, fails: a child that exits by itself with status 124
    before the timer comes due gives exit code 124 although [timedOut] was
    never set and no signal was sent. *)
Lemma sentinel_124_fails : ~ sentinel_124 [ProcClose (Some 124)].
Proof.
  intros H. specialize (H (Outcome [] [] 124) eq_refl).
  simpl in H. destruct H as [H _]. specialize (H eq_refl). discriminate.
Qed.

(** C8, amended. When the close event settles the promise, the exit code is
    124 if the timer came due before it, and the child's own status (1 when
    it has none) otherwise; so the exit code is 124 exactly when the timer
    came due first or the child itself reported 124.  When the error event
    settles the promise the exit code is 1. *)
Theorem exit_code_124 (pre rest : list proc_event) (code : option Z) (message : jstring) :
  quiet pre = true ->
  (exists o, execJust_outcome (pre ++ ProcClose code :: rest) = Some o
     /\ exitCode o = (if timer_fires_in pre then 124 else default 1 code)
     /\ (exitCode o = 124 <-> timer_fires_in pre = true \/ code = Some 124))
  /\ (exists o, execJust_outcome (pre ++ ProcError message :: rest) = Some o
        /\ exitCode o = 1).
Proof.
  intros Hq. split.
  - eexists. split; [by apply outcome_on_close |].
    destruct (timer_fires_in pre); simpl.
    + split; [done | naive_solver].
    + split; [done |]. destruct code as [c|]; simpl; naive_solver.
  - eexists. split; [by apply outcome_on_error | done].
Qed.

Lemma exit_code_124_witness :
  exists o, execJust_outcome ([StdoutData (lit "a")] ++ ProcClose (Some 124) :: []) = Some o
    /\ exitCode o = 124.
Proof.
  destruct (exit_code_124 [StdoutData (lit "a")] [] (Some 124) [] eq_refl)
    as [(o & Ho & He & _) _].
  exists o. split; [exact Ho | exact He].
Defined.

(** ** handleTool *)

Lemma handleTool_list (args : option bag) :
  let b := default ∅ args in
  handleTool (lit "list") args =
    AwaitExec (getBaseArgs (string_or_undefined (prop b "justfile")) ++ [lit "--list"])
      (string_or_undefined (prop b "working_directory")) None then_format.
Proof. unfold handleTool. tool_name; done. Qed.

Lemma handleTool_show (args : option bag) :
  let b := default ∅ args in
  handleTool (lit "show") args =
    match validateRecipeName (prop b "recipe") with
    | inl e => Throw e
    | inr recipe =>
        AwaitExec
          (getBaseArgs (string_or_undefined (prop b "justfile")) ++ [lit "--show"; recipe])
          (string_or_undefined (prop b "working_directory")) None then_format
    end.
Proof.
  unfold handleTool. tool_name; try done.
  by destruct (validateRecipeName _).
Qed.

Lemma handleTool_run (args : option bag) :
  let b := default ∅ args in
  handleTool (lit "run") args =
    match validateRecipeName (prop b "recipe") with
    | inl e => Throw e
    | inr recipe =>
        AwaitExec
          (getBaseArgs (string_or_undefined (prop b "justfile")) ++ [recipe] ++ extra_args b)
          (string_or_undefined (prop b "working_directory"))
          (Some (requested_timeout b)) then_format
    end.
Proof.
  unfold handleTool, extra_args, requested_timeout. tool_name; try done.
  destruct (validateRecipeName _) as [e | recipe]; [done |]. cbn zeta.
  simpl mbind. unfold then_format.
  destruct (prop (default ∅ args) "args"); simpl;
    rewrite <- ?app_assoc, ?app_nil_r; done.
Qed.

Lemma handleTool_unknown (name : jstring) (args : option bag) :
  name ∉ known_tools ->
  handleTool name args = Throw (JsError (lit "Unknown tool: " ++ name)).
Proof.
  intros Hn. unfold handleTool, known_tools in *. tool_name. done.
Qed.

(** Every operation either throws before spawning anything or awaits
    exactly one call of the executor and formats its outcome. *)
Lemma handleTool_shape (name : jstring) (args : option bag) :
  (exists e, handleTool name args = Throw e
     /\ (error_message e ∈ [msg_not_a_name; msg_leading_dash; msg_invalid_chars]
         \/ error_message e = lit "Unknown tool: " ++ name))
  \/ (exists a w t, handleTool name args = AwaitExec a w t then_format).
Proof.
  destruct (decide (name ∈ known_tools)) as [Hk | Hk].
  - assert (Hv : forall v e, validateRecipeName v = inl e ->
                   error_message e
                     ∈ [msg_not_a_name; msg_leading_dash; msg_invalid_chars]).
    { intros v e He.
      assert (Hcases : validateRecipeName v = inl (JsError msg_not_a_name)
                \/ validateRecipeName v = inl (JsError msg_leading_dash)
                \/ validateRecipeName v = inl (JsError msg_invalid_chars)
                \/ exists s, validateRecipeName v = inr s).
      { destruct v; try (by left).
        destruct (validateRecipeName_cases s)
          as [(_ & H) | [(_ & _ & H) | [(_ & _ & _ & H) | (_ & _ & _ & H)]]];
          eauto. }
      destruct Hcases as [H | [H | [H | [s H]]]];
        rewrite H in He; inversion He; subst; simpl; set_solver. }
    unfold known_tools in Hk.
    apply elem_of_cons in Hk as [-> | Hk]; [| apply elem_of_cons in Hk as [-> | Hk]].
    + right. rewrite handleTool_list. eauto.
    + rewrite handleTool_run.
      destruct (validateRecipeName _) as [e | r] eqn:E; [left | right]; eauto.
    + apply list_elem_of_singleton in Hk as ->. rewrite handleTool_show.
      destruct (validateRecipeName _) as [e | r] eqn:E; [left | right]; eauto.
  - left. rewrite handleTool_unknown by done. eexists. split; [done |]. by right.
Qed.

(** ** The request boundary *)

Lemma callTool_throw (process_cwd : jstring) (os : host) (req : request) (e : thrown) :
  handleTool (name req) (arguments req) = Throw e ->
  callTool process_cwd os req
  = (Fulfilled {| text := lit "Error: " ++ error_message e; isError := true |}, []).
Proof. intros H. unfold callTool. by rewrite H. Qed.

Lemma callTool_exec (process_cwd : jstring) (os : host) (req : request)
    (a : list jstring) (w : option jstring) (t : option float) :
  handleTool (name req) (arguments req) = AwaitExec a w t then_format ->
  callTool process_cwd os req
  = match os (execJust_spawn process_cwd a w t) with
    | SpawnThrows e =>
        (Fulfilled {| text := lit "Error: " ++ error_message e; isError := true |},
         [execJust_spawn process_cwd a w t])
    | Spawned events =>
        match execJust_outcome events with
        | Some o => (Fulfilled {| text := formatResult o; isError := false |},
                     [execJust_spawn process_cwd a w t])
        | None => (NeverSettles, [execJust_spawn process_cwd a w t])
        end
    end.
Proof.
  intros H. unfold callTool. rewrite H. simpl.
  destruct (os _) as [e | events]; [done |]. by destruct (execJust_outcome _).
Qed.

(** The calls of [spawn] a request makes do not depend on what they result
    in. *)
Lemma callTool_calls (process_cwd : jstring) (os : host) (req : request)
    (a : list jstring) (w : option jstring) (t : option float) :
  handleTool (name req) (arguments req) = AwaitExec a w t then_format ->
  snd (callTool process_cwd os req) = [execJust_spawn process_cwd a w t].
Proof.
  intros H. rewrite (callTool_exec _ _ _ _ _ _ H).
  destruct (os _) as [e | events]; [done |]. by destruct (execJust_outcome _).
Qed.

(** C5. The request handler never throws.  When handling throws, the
    response is [{ text: "Error: " + message, isError: true }]; the errors
    handling can throw are the three validation errors, the unknown-tool
    error and whatever the call of [spawn] threw.  When handling returns,
    the response is the formatted text of an outcome with no error flag.
    A response has the error flag exactly when handling threw, and a
    response is produced whenever every spawned child eventually closes or
    errors. *)
Theorem callTool_never_throws (process_cwd : jstring) (os : host) (req : request) :
  let handled := fst (run_prog process_cwd os (handleTool (name req) (arguments req))) in
  let answered := fst (callTool process_cwd os req) in
  (forall e, answered <> Rejected e)
  /\ (forall e, handled = Rejected e ->
        answered = Fulfilled {| text := lit "Error: " ++ error_message e; isError := true |}
        /\ (error_message e ∈ [msg_not_a_name; msg_leading_dash; msg_invalid_chars]
            \/ error_message e = lit "Unknown tool: " ++ name req
            \/ exists c, c ∈ snd (callTool process_cwd os req) /\ os c = SpawnThrows e))
  /\ (forall t, handled = Fulfilled t ->
        answered = Fulfilled {| text := t; isError := false |}
        /\ exists o, t = formatResult o)
  /\ (forall r, answered = Fulfilled r ->
        (isError r = true <-> exists e, handled = Rejected e)
        /\ (isError r = false <-> exists t, handled = Fulfilled t))
  /\ ((forall c events, os c = Spawned events -> quiet events = false) ->
      exists r, answered = Fulfilled r).
Proof.
  cbn zeta.
  destruct (handleTool_shape (name req) (arguments req))
    as [(e & He & Hmsg) | (a & w & t & He)].
  - rewrite (callTool_throw _ _ _ _ He), He. simpl.
    split; [done |]. split; [intros ? [= <-]; split; [done | tauto] |].
    split; [done |]. split; [| eauto].
    intros r [= <-]. simpl. split; split; try done; eauto.
    by intros [? ?].
  - rewrite (callTool_exec _ _ _ _ _ _ He), He. simpl.
    destruct (os _) as [e | events] eqn:Hos; simpl.
    { split; [done |]. split.
      { intros ? [= <-]. split; [done |]. right. right.
        eexists. split; [apply list_elem_of_singleton; reflexivity | done]. }
      split; [done |]. split; [| eauto].
      intros r [= <-]. simpl. split; split; try done; eauto.
      by intros [? ?]. }
    destruct (execJust_outcome events) as [o|] eqn:Ho; simpl.
    + split; [done |]. split; [done |].
      split; [intros ? [= <-]; eauto |].
      split; [| eauto].
      intros r [= <-]. simpl. split; split; try done; eauto.
      by intros [? ?].
    + split; [done |]. split; [done |]. split; [done |]. split; [done |].
      intros Hq. apply execJust_unsettled_iff in Ho.
      by rewrite (Hq _ _ Hos) in Ho.
Qed.

(** C7. A name that is not in the registry makes handling throw
    [Unknown tool: <name>]; the response is the failure
    [Error: Unknown tool: <name>] with the error flag, and no process is
    spawned for the request. *)
Theorem unknown_tool (process_cwd : jstring) (os : host)
    (name : jstring) (args : option bag) :
  name ∉ known_tools ->
  handleTool name args = Throw (JsError (lit "Unknown tool: " ++ name))
  /\ callTool process_cwd os (Request name args)
     = (Fulfilled {| text := lit "Error: Unknown tool: " ++ name; isError := true |}, []).
Proof.
  intros Hn. pose proof (handleTool_unknown name args Hn) as H.
  split; [done |]. by rewrite (callTool_throw _ _ (Request name args) _ H).
Qed.

(** The operation [delete]. *)
Lemma unknown_tool_witness :
  callTool (lit "/home") (fun _ => Spawned [ProcClose (Some 0)]) (Request (lit "delete") None)
  = (Fulfilled {| text := lit "Error: Unknown tool: delete"; isError := true |}, []).
Proof.
  refine (proj2 (unknown_tool (lit "/home") (fun _ => Spawned [ProcClose (Some 0)])
                   (lit "delete") None _)).
  apply (bool_decide_unpack _). vm_compute. exact I.
Defined.

(** ** Argument vectors *)

Lemma filter_strings_elem (elems : list value) (s : jstring) :
  s ∈ filter_strings elems <-> JStr s ∈ elems.
Proof.
  unfold filter_strings. rewrite list_elem_of_omap. split.
  - intros (v & Hv & Hs). destruct v; simpl in Hs; try discriminate.
    by injection Hs as ->.
  - intros H. by exists (JStr s).
Qed.

(** C6. [list] runs the base arguments and [--list]; [show] the base
    arguments, [--show] and the validated recipe name; [run] the base
    arguments, the validated recipe name and then every string element of
    [args], each as a token of its own and in order.  The base arguments
    are [--color=never], followed by [--justfile] and the path when
    [justfile] is a non-empty string.  For [run] with
    [{recipe: "build", args: ["--release"], working_directory: "/repo"}]
    the one process spawned is [just] with the argument vector
    [["--color=never", "build", "--release"]] and working directory
    [/repo]. *)
Theorem argument_vector (process_cwd : jstring) (os : host) (args : option bag) :
  let b := default ∅ args in
  let base := getBaseArgs (string_or_undefined (prop b "justfile")) in
  let wd := string_or_undefined (prop b "working_directory") in
  handleTool (lit "list") args = AwaitExec (base ++ [lit "--list"]) wd None then_format
  /\ (forall recipe, validateRecipeName (prop b "recipe") = inr recipe ->
        handleTool (lit "show") args
        = AwaitExec (base ++ [lit "--show"; recipe]) wd None then_format
        /\ handleTool (lit "run") args
           = AwaitExec (base ++ [recipe] ++ extra_args b) wd
               (Some (requested_timeout b)) then_format)
  /\ base = lit "--color=never"
            :: match prop b "justfile" with
               | JStr path => if decide (path = []) then [] else [lit "--justfile"; path]
               | _ => []
               end
  /\ (forall elems, prop b "args" = JArr elems ->
        extra_args b = filter_strings elems
        /\ forall s, s ∈ extra_args b <-> JStr s ∈ elems)
  /\ snd (callTool process_cwd os (Request (lit "run") (Some build_release)))
     = [ {| command := lit "just";
            argv := [lit "--color=never"; lit "build"; lit "--release"];
            cwd := lit "/repo";
            timer_delay := DEFAULT_TIMEOUT |} ].
Proof.
  cbn zeta. split; [apply handleTool_list |]. split; [| split; [| split]].
  - intros recipe Hr. pose proof (handleTool_show args) as Hs.
    pose proof (handleTool_run args) as Hrun. cbn zeta in Hs, Hrun.
    by rewrite Hr in Hs, Hrun.
  - unfold getBaseArgs. destruct (prop (default ∅ args) "justfile"); try done.
    simpl. by destruct s.
  - intros elems He. unfold extra_args. rewrite He.
    split; [done |]. intros s. apply filter_strings_elem.
  - assert (Hb : handleTool (lit "run") (Some build_release)
                 = AwaitExec [lit "--color=never"; lit "build"; lit "--release"]
                     (Some (lit "/repo")) (Some DEFAULT_TIMEOUT) then_format)
      by (by vm_compute).
    by rewrite (callTool_calls _ _ (Request (lit "run") (Some build_release)) _ _ _ Hb).
Qed.

(** ** Timeouts *)

Lemma prop_insert_ne (b : bag) (k : string) (k' : jstring) (v : value) :
  k' <> lit k -> prop (<[k' := v]> b) k = prop b k.
Proof. intros H. unfold prop. by rewrite lookup_insert_ne. Qed.

Lemma prop_insert_eq (b : bag) (k : string) (v : value) :
  prop (<[lit k := v]> b) k = v.
Proof. unfold prop. by rewrite lookup_insert_eq. Qed.

(** Every process a request spawns comes from the one call of the executor
    that handling awaits. *)
Lemma callTool_spawned (process_cwd : jstring) (os : host) (req : request)
    (c : spawn_call) :
  c ∈ snd (callTool process_cwd os req) ->
  exists a w t, handleTool (name req) (arguments req) = AwaitExec a w t then_format
                /\ c = execJust_spawn process_cwd a w t.
Proof.
  destruct (handleTool_shape (name req) (arguments req))
    as [(e & He & _) | (a & w & t & He)].
  - rewrite (callTool_throw _ _ _ _ He). simpl. set_solver.
  - rewrite (callTool_calls _ _ _ _ _ _ He).
    intros ->%list_elem_of_singleton; eauto.
Qed.

(** C9. A [timeout] argument matters to [run] only.  Whatever value the
    bag holds under [timeout], [list] and [show] handle the request in
    the same way as without it, and every process they spawn has its timer
    set to the default of 300000 ms; [run] sets the timer to the number
    given. *)
Theorem timeout_only_for_run (process_cwd : jstring) (os : host)
    (b : bag) (v : value) (t : float) :
  handleTool (lit "list") (Some (<[lit "timeout" := v]> b)) = handleTool (lit "list") (Some b)
  /\ handleTool (lit "show") (Some (<[lit "timeout" := v]> b)) = handleTool (lit "show") (Some b)
  /\ (exists c, snd (callTool process_cwd os
                        (Request (lit "list") (Some (<[lit "timeout" := v]> b)))) = [c]
                /\ timer_delay c = 300000%float)
  /\ (forall c, c ∈ snd (callTool process_cwd os (Request (lit "list") (Some b))) ->
        timer_delay c = 300000%float)
  /\ (forall c, c ∈ snd (callTool process_cwd os (Request (lit "show") (Some b))) ->
        timer_delay c = 300000%float)
  /\ (forall c, c ∈ snd (callTool process_cwd os
                           (Request (lit "run") (Some (<[lit "timeout" := JNum t]> b)))) ->
        timer_delay c = t).
Proof.
  assert (Hne : forall k, lit "timeout" <> lit k ->
            prop (<[lit "timeout" := v]> b) k = prop b k)
    by (intros; by apply prop_insert_ne).
  split; [| split; [| split; [| split; [| split]]]].
  - rewrite !handleTool_list. cbn [default]. by rewrite !Hne.
  - rewrite !handleTool_show. cbn [default]. by rewrite !Hne.
  - rewrite (callTool_calls _ _ (Request (lit "list") _) _ _ _ (handleTool_list _)).
    eauto.
  - intros c (a & w & t' & He & ->)%callTool_spawned.
    cbn [name arguments] in He. rewrite handleTool_list in He.
    by injection He as <- <- <-.
  - intros c (a & w & t' & He & ->)%callTool_spawned.
    cbn [name arguments] in He. rewrite handleTool_show in He. cbn zeta in He.
    destruct (validateRecipeName _); [discriminate |].
    by injection He as <- <- <-.
  - intros c (a & w & t' & He & ->)%callTool_spawned.
    cbn [name arguments] in He. rewrite handleTool_run in He. cbn zeta in He.
    destruct (validateRecipeName _); [discriminate |].
    injection He as <- <- <-. unfold requested_timeout. cbn [default].
    by rewrite prop_insert_eq.
Qed.

(** * Further properties of the code *)

(** ** The promise of [execJust] *)

Lemma quiet_app (a b : list proc_event) :
  quiet (a ++ b) = quiet a && quiet b.
Proof. unfold quiet. apply forallb_app. Qed.

(** A trace that is not quiet splits at its first settling event. *)
Lemma first_settling_event (evs : list proc_event) :
  quiet evs = false ->
  exists pre e rest, evs = pre ++ e :: rest /\ quiet pre = true /\ settles e = true.
Proof.
  induction evs as [|e evs IH]; [discriminate |].
  destruct (settles e) eqn:He.
  - intros _. by exists [], e, evs.
  - intros Hq. simpl in Hq. rewrite He in Hq. simpl in Hq.
    destruct (IH Hq) as (pre & e' & rest & -> & Hpre & He').
    exists (e :: pre), e', rest. repeat split; try done.
    simpl. by rewrite He.
Qed.

(** X1. [resolve] takes effect once: the outcome is decided by the events up to
    and including the first close or error event; whatever the child or the
    timer deliver afterwards (a close after an error, late data, a late
    timer) does not change it. *)
Theorem outcome_decided_by_first_settling_event
    (pre rest : list proc_event) (e : proc_event) :
  quiet pre = true ->
  settles e = true ->
  execJust_outcome (pre ++ e :: rest) = execJust_outcome (pre ++ [e])
  /\ exists o, execJust_outcome (pre ++ [e]) = Some o.
Proof.
  intros Hq He. destruct e; try discriminate.
  - rewrite !outcome_on_close by done. eauto.
  - rewrite !outcome_on_error by done. eauto.
Qed.

Lemma outcome_decided_by_first_settling_event_witness :
  execJust_outcome ([StdoutData (lit "a")] ++ ProcError (lit "boom")
                      :: [StdoutData (lit "late"); ProcClose (Some 0)])
  = execJust_outcome ([StdoutData (lit "a")] ++ [ProcError (lit "boom")]).
Proof.
  exact (proj1 (outcome_decided_by_first_settling_event [StdoutData (lit "a")]
                  [StdoutData (lit "late"); ProcClose (Some 0)]
                  (ProcError (lit "boom")) eq_refl eq_refl)).
Defined.

(** X2. The promise settles exactly when the child closes or errors.  The timer
    alone never settles it: a child that survives SIGTERM and never closes
    leaves the call pending. *)
Theorem settles_iff_close_or_error (evs : list proc_event) :
  (exists o, execJust_outcome evs = Some o)
  <-> exists e, e ∈ evs /\ settles e = true.
Proof.
  split.
  - intros [o Ho]. destruct (quiet evs) eqn:Hq.
    + apply execJust_unsettled_iff in Hq. congruence.
    + destruct (first_settling_event evs Hq) as (pre & e & rest & -> & _ & He).
      exists e. split; [set_solver | done].
  - intros (e & Hin & He).
    destruct (execJust_outcome evs) as [o|] eqn:Ho; [eauto |].
    apply execJust_unsettled_iff in Ho. unfold quiet in Ho.
    rewrite forallb_forall in Ho. apply list_elem_of_In in Hin.
    specialize (Ho e Hin). by rewrite He in Ho.
Qed.

(** X3. In every execution SIGTERM is sent at most once, and it has been sent
    exactly when [timedOut] is set, which is exactly when the timer has
    fired; a cleared timer never sends it. *)
Theorem sigterm_at_most_once (evs : list proc_event) :
  let st := exec_events exec_init evs in
  (st_kills st = [] /\ st_timedOut st = false /\ st_timer st <> Fired)
  \/ (st_kills st = [SIGTERM] /\ st_timedOut st = true /\ st_timer st = Fired).
Proof.
  cbn zeta.
  assert (Hgen : forall st,
            (st_kills st = [] /\ st_timedOut st = false /\ st_timer st <> Fired)
            \/ (st_kills st = [SIGTERM] /\ st_timedOut st = true /\ st_timer st = Fired) ->
            let st' := exec_events st evs in
            (st_kills st' = [] /\ st_timedOut st' = false /\ st_timer st' <> Fired)
            \/ (st_kills st' = [SIGTERM] /\ st_timedOut st' = true /\ st_timer st' = Fired)).
  { induction evs as [|e evs IH]; intros st Hst; [done |].
    cbn zeta. rewrite exec_events_cons. apply IH.
    destruct e; simpl; try done.
    - destruct (st_timer st) eqn:Et; simpl; [| by rewrite Et ..].
      destruct Hst as [(Hk & _ & _) | (_ & _ & Hf)]; [| discriminate].
      right. by rewrite Hk.
    - destruct Hst as [(Hk & Ho & Hf) | (Hk & Ho & Hf)]; [left | right];
        (split; [done | split; [done |]]); destruct (st_timer st); done.
    - destruct Hst as [(Hk & Ho & Hf) | (Hk & Ho & Hf)]; [left | right];
        (split; [done | split; [done |]]); destruct (st_timer st); done. }
  apply Hgen. left. by simpl.
Qed.

(** ** What the formatter keeps *)

Lemma lit_inj (a b : string) : lit a = lit b -> a = b.
Proof.
  revert b. induction a as [|c a IH]; intros [|d b]; unfold lit; fold lit;
    try done.
  intros [= Hc Hl]. f_equal; [| by apply IH].
  rewrite <- (ascii_N_embedding c), <- (ascii_N_embedding d). by rewrite Hc.
Qed.

Lemma exit_marker_inj (n m : Z) : exit_marker n = exit_marker m -> n = m.
Proof.
  unfold exit_marker, Z_to_jstring. intros H.
  do 2 apply app_inv_head in H. apply app_inv_tail in H.
  by apply (inj pretty), lit_inj.
Qed.

(** The text is never empty: [formatResult] returns some output, a marker
    or the placeholder. *)
Lemma formatResult_nonempty (o : outcome) : formatResult o <> [].
Proof.
  destruct o as [out err code]. rewrite formatResult_combined.
  by destruct (spec_combined_text out err code).
Qed.

(** The two shapes of the text, by exit code. *)
Lemma formatResult_cases (out err : jstring) (code : Z) :
  let body := out ++ spec_separator out err ++ err in
  formatResult (Outcome out err code)
  = if decide (code = 0)
    then (if decide (body = []) then placeholder else body)
    else body ++ exit_marker code.
Proof.
  cbn zeta. rewrite formatResult_combined. unfold spec_combined_text.
  case_decide.
  - rewrite app_nil_r. by destruct (out ++ spec_separator out err ++ err).
  - rewrite !app_assoc. destruct (exit_marker_cons code) as [r ->].
    by destruct ((out ++ spec_separator out err) ++ err).
Qed.

(** X4. The exit code is never lost in formatting: for the same captured
    output, two different exit codes give two different texts. *)
Theorem formatResult_exit_code_inj (out err : jstring) (n m : Z) :
  formatResult (Outcome out err n) = formatResult (Outcome out err m) -> n = m.
Proof.
  rewrite !formatResult_cases. cbn zeta.
  set (body := out ++ spec_separator out err ++ err).
  assert (Hzero : forall k, k <> 0 ->
            (if decide (body = []) then placeholder else body)
            <> body ++ exit_marker k).
  { intros k Hk. destruct (exit_marker_cons k) as [r Hr].
    case_decide as Hb.
    - rewrite Hb, Hr. discriminate.
    - rewrite <- (app_nil_r body) at 1. intros H%app_inv_head.
      by rewrite Hr in H. }
  destruct (decide (n = 0)) as [-> | Hn], (decide (m = 0)) as [-> | Hm];
    [done | | |].
  - intros H. by destruct (Hzero m Hm).
  - intros H. by destruct (Hzero n Hn).
  - intros H%app_inv_head. by apply exit_marker_inj.
Qed.

Lemma formatResult_exit_code_inj_witness : (3 : Z) = 3.
Proof.
  exact (formatResult_exit_code_inj (lit "out") [] 3 3 eq_refl).
Defined.

(** ** Recipe names are not trimmed *)

Lemma whitespace_not_name_char (c : N) : is_whitespace c = true -> ~ name_char c.
Proof.
  intros Hw Hn%in_name_class_spec. revert Hw Hn.
  unfold is_whitespace, in_name_class.
  rewrite !orb_true_iff, !andb_true_iff, !N.leb_le, !N.eqb_eq. lia.
Qed.

(** The three tests of [validateRecipeName], passed. *)
Lemma valid_name_by_tests (s : jstring) :
  truthy (trim s) = true ->
  startsWith_dash s = false ->
  name_regex_test s = true ->
  spec_valid_recipe_name s.
Proof.
  intros Ht Hd Hr.
  assert (Hws : ~ all_whitespace s).
  { intros H%trim_falsy. congruence. }
  split; [| split; [done | split]].
  - intros ->. apply Hws. constructor.
  - intros H%startsWith_dash_spec. congruence.
  - by apply name_regex_test_spec.
Qed.

(** X5. [trim] is only used to tell a blank name; the name itself is checked
    as given.  A valid name with a whitespace character put before or after
    it (a trailing newline, a leading space) is rejected for its
    characters. *)
Theorem padded_name_rejected (s : jstring) (w : N) :
  spec_valid_recipe_name s ->
  is_whitespace w = true ->
  validateRecipeName (JStr (w :: s)) = inl (JsError msg_invalid_chars)
  /\ validateRecipeName (JStr (s ++ [w])) = inl (JsError msg_invalid_chars).
Proof.
  intros (Hne & Hws & Hd & Hp) Hw.
  pose proof (whitespace_not_name_char w Hw) as Hwn.
  split.
  - destruct (validateRecipeName_cases (w :: s))
      as [(H & _) | [(_ & H & _) | [(_ & _ & _ & H) | (_ & _ & H & _)]]];
      [| | done |].
    + inversion H; subst. by destruct Hws.
    + destruct H as [r [= -> _]]. discriminate.
    + destruct H as [_ H]. inversion H; subst. done.
  - destruct (validateRecipeName_cases (s ++ [w]))
      as [(H & _) | [(_ & H & _) | [(_ & _ & _ & H) | (_ & _ & H & _)]]];
      [| | done |].
    + apply Forall_app in H as [H _]. by destruct Hws.
    + destruct s as [|c s]; [done |]. destruct H as [r [= -> _]].
      destruct Hd. by exists s.
    + destruct H as [_ H]. apply Forall_app in H as [_ H].
      inversion H; subst. done.
Qed.

Lemma padded_name_rejected_witness :
  validateRecipeName (JStr (lit "build" ++ [10%N])) = inl (JsError msg_invalid_chars).
Proof.
  exact (proj2 (padded_name_rejected (lit "build") 10%N
                  (valid_name_by_tests (lit "build") eq_refl eq_refl eq_refl)
                  eq_refl)).
Defined.

(** ** Pass-through arguments *)


(** ** What a request spawns *)

Lemma validateRecipeName_inr (v : value) (r : jstring) :
  validateRecipeName v = inr r <-> v = JStr r /\ spec_valid_recipe_name r.
Proof.
  split.
  - intros H. destruct v as [| | | |s| |]; try discriminate.
    destruct (validateRecipeName_cases s)
      as [(_ & E) | [(_ & _ & E) | [(_ & _ & _ & E) | (Hws & Hd & Hp & E)]]];
      rewrite E in H; try discriminate.
    injection H as <-. split; [done |]. split; [| done].
    intros ->. apply Hws. constructor.
  - intros [-> (Hne & Hws & Hd & Hp)].
    by destruct (validateRecipeName_cases r)
      as [(? & _) | [(_ & ? & _) | [(_ & _ & ? & _) | (_ & _ & _ & E)]]].
Qed.

Lemma validateRecipeName_inl (v : value) (e : thrown) :
  validateRecipeName v = inl e ->
  e = JsError msg_not_a_name \/ e = JsError msg_leading_dash
  \/ e = JsError msg_invalid_chars.
Proof.
  intros H. destruct v as [| | | |s| |];
    try (left; by injection H as <-).
  destruct (validateRecipeName_cases s)
    as [(_ & E) | [(_ & _ & E) | [(_ & _ & _ & E) | (_ & _ & _ & E)]]];
    rewrite E in H; try discriminate; injection H as <-; auto.
Qed.

Lemma getBaseArgs_head (justfile : option jstring) :
  exists rest, getBaseArgs justfile = lit "--color=never" :: rest.
Proof.
  unfold getBaseArgs. destruct justfile as [p|]; [destruct (truthy p) |]; eauto.
Qed.

(** The only calls of the executor [handleTool] makes. *)
Lemma handleTool_await_inv (name : jstring) (args : option bag)
    (a : list jstring) (w : option jstring) (t : option float)
    (k : outcome -> prog jstring) :
  handleTool name args = AwaitExec a w t k ->
  let b := default ∅ args in
  let base := getBaseArgs (string_or_undefined (prop b "justfile")) in
  k = then_format
  /\ w = string_or_undefined (prop b "working_directory")
  /\ ((name = lit "list" /\ a = base ++ [lit "--list"] /\ t = None)
      \/ (name = lit "show" /\ t = None
          /\ exists r, validateRecipeName (prop b "recipe") = inr r
                       /\ a = base ++ [lit "--show"; r])
      \/ (name = lit "run" /\ t = Some (requested_timeout b)
          /\ exists r, validateRecipeName (prop b "recipe") = inr r
                       /\ a = base ++ [r] ++ extra_args b)).
Proof.
  intros H. cbn zeta.
  destruct (decide (name ∈ known_tools)) as [Hk | Hk].
  2:{ by rewrite handleTool_unknown in H. }
  unfold known_tools in Hk.
  apply elem_of_cons in Hk as [-> | Hk]; [| apply elem_of_cons in Hk as [-> | Hk]].
  - rewrite handleTool_list in H. injection H as <- <- <- <-.
    split; [done | split; [done |]]. by left.
  - rewrite handleTool_run in H. cbn zeta in H.
    destruct (validateRecipeName _) as [e | r] eqn:E; [discriminate |].
    injection H as <- <- <- <-. split; [done | split; [done |]].
    right. right. eauto.
  - apply list_elem_of_singleton in Hk as ->.
    rewrite handleTool_show in H. cbn zeta in H.
    destruct (validateRecipeName _) as [e | r] eqn:E; [discriminate |].
    injection H as <- <- <- <-. split; [done | split; [done |]].
    right. left. eauto.
Qed.

(** X7. A request spawns at most one process; it is always the executable
    [just], its first argument is always [--color=never], and it runs in
    the requested working directory when that is a non-empty string and in
    the server's own directory otherwise (absent, not a string, or empty). *)
Theorem spawns_are_just (process_cwd : jstring) (os : host) (req : request) :
  (length (snd (callTool process_cwd os req)) <= 1)%nat
  /\ forall c, c ∈ snd (callTool process_cwd os req) ->
       command c = lit "just"
       /\ (exists rest, argv c = lit "--color=never" :: rest)
       /\ cwd c = requested_cwd process_cwd (default ∅ (arguments req)).
Proof.
  split.
  - destruct (handleTool_shape (name req) (arguments req))
      as [(e & He & _) | (a & w & t & He)].
    + rewrite (callTool_throw _ _ _ _ He). simpl. lia.
    + rewrite (callTool_calls _ _ _ _ _ _ He). simpl. lia.
  - intros c (a & w & t & He & ->)%callTool_spawned.
    apply handleTool_await_inv in He as (_ & -> & Ha). cbn zeta in Ha.
    split; [done | split].
    + destruct (getBaseArgs_head
                  (string_or_undefined (prop (default ∅ (arguments req)) "justfile")))
        as [rest Hrest].
      rewrite Hrest in Ha. simpl.
      destruct Ha as [(_ & -> & _) | [(_ & _ & r & _ & ->) | (_ & _ & r & _ & ->)]];
        eauto.
    + unfold requested_cwd. simpl.
      destruct (prop (default ∅ (arguments req)) "working_directory");
        try done. simpl. by destruct s.
Qed.

(** X8. A response has the error flag exactly when no call of [spawn]
    returned a child: the request made no call, or the call threw.  Once
    [spawn] has returned a child the response is a success response,
    whatever the exit code, also when the child then fails to start. *)
Theorem failure_iff_no_child_returned (process_cwd : jstring) (os : host)
    (req : request) (r : response) :
  fst (callTool process_cwd os req) = Fulfilled r ->
  (isError r = true <->
   forall c, c ∈ snd (callTool process_cwd os req) -> exists e, os c = SpawnThrows e).
Proof.
  destruct (handleTool_shape (name req) (arguments req))
    as [(e & He & _) | (a & w & t & He)].
  - rewrite (callTool_throw _ _ _ _ He). simpl. intros [= <-]. simpl.
    split; [| done]. intros _ c Hc. by apply elem_of_nil in Hc.
  - rewrite (callTool_exec _ _ _ _ _ _ He).
    destruct (os _) as [e | events] eqn:Hos; simpl.
    { intros [= <-]. simpl. split; [| done].
      intros _ c ->%list_elem_of_singleton. eauto. }
    destruct (execJust_outcome _); simpl; [| done].
    intros [= <-]. simpl. split; [discriminate |].
    intros H. destruct (H _ (proj2 (list_elem_of_singleton _ _) eq_refl)) as [e He'].
    congruence.
Qed.

(** [list] with a working directory that is not a directory: [spawn] throws. *)
Lemma failure_iff_no_child_returned_witness :
  isError {| text := lit "Error: spawn ENOTDIR"; isError := true |} = true.
Proof.
  refine (proj2 (failure_iff_no_child_returned (lit "/home")
                   (fun _ => SpawnThrows (JsError (lit "spawn ENOTDIR")))
                   (Request (lit "list") None)
                   {| text := lit "Error: spawn ENOTDIR"; isError := true |}
                   eq_refl) _).
  intros c _. by exists (JsError (lit "spawn ENOTDIR")).
Defined.

(** X9. [run] and [show] call [spawn] exactly when the recipe is a valid
    name, and the token they pass is the caller's string as given; [list]
    always calls [spawn].  (Whether the call starts a child is the host's
    matter: it may throw, or the child may fail to start.) *)
Theorem spawn_iff_valid_recipe (process_cwd : jstring) (os : host) (args : option bag) :
  let b := default ∅ args in
  let base := getBaseArgs (string_or_undefined (prop b "justfile")) in
  let valid := exists r, prop b "recipe" = JStr r /\ spec_valid_recipe_name r in
  (snd (callTool process_cwd os (Request (lit "run") args)) <> [] <-> valid)
  /\ (snd (callTool process_cwd os (Request (lit "show") args)) <> [] <-> valid)
  /\ snd (callTool process_cwd os (Request (lit "list") args)) <> []
  /\ (forall c, c ∈ snd (callTool process_cwd os (Request (lit "run") args)) ->
        exists r, prop b "recipe" = JStr r /\ argv c = base ++ r :: extra_args b)
  /\ (forall c, c ∈ snd (callTool process_cwd os (Request (lit "show") args)) ->
        exists r, prop b "recipe" = JStr r /\ argv c = base ++ [lit "--show"; r]).
Proof.
  cbn zeta.
  assert (Hspawn : forall req a w t,
            handleTool (name req) (arguments req) = AwaitExec a w t then_format ->
            snd (callTool process_cwd os req) <> []).
  { intros req a w t He. by rewrite (callTool_calls _ _ _ _ _ _ He). }
  assert (Hnone : forall req e,
            handleTool (name req) (arguments req) = Throw e ->
            snd (callTool process_cwd os req) = []).
  { intros req e He. by rewrite (callTool_throw _ _ _ _ He). }
  pose proof (handleTool_run args) as Hrun.
  pose proof (handleTool_show args) as Hshow. cbn zeta in Hrun, Hshow.
  split; [| split; [| split; [| split]]].
  - destruct (validateRecipeName _) as [e | r] eqn:E.
    + rewrite (Hnone (Request (lit "run") args) e Hrun). split; [done |].
      intros (r & Hr & Hv).
      pose proof (proj2 (validateRecipeName_inr _ r) (conj Hr Hv)). congruence.
    + split; [| intros _; by apply (Hspawn (Request (lit "run") args) _ _ _ Hrun)].
      intros _. exists r. by apply validateRecipeName_inr.
  - destruct (validateRecipeName _) as [e | r] eqn:E.
    + rewrite (Hnone (Request (lit "show") args) e Hshow). split; [done |].
      intros (r & Hr & Hv).
      pose proof (proj2 (validateRecipeName_inr _ r) (conj Hr Hv)). congruence.
    + split; [| intros _; by apply (Hspawn (Request (lit "show") args) _ _ _ Hshow)].
      intros _. exists r. by apply validateRecipeName_inr.
  - apply (Hspawn (Request (lit "list") args) _ _ _ (handleTool_list args)).
  - intros c (a & w & t & He & ->)%callTool_spawned.
    apply handleTool_await_inv in He as (_ & _ & Ha). cbn zeta in Ha. simpl in Ha.
    destruct Ha as [(Hn & _) | [(Hn & _) | (_ & _ & r & Hr & ->)]];
      [by vm_compute in Hn | by vm_compute in Hn |].
    exists r. split; [by apply validateRecipeName_inr in Hr as [? _] | done].
  - intros c (a & w & t & He & ->)%callTool_spawned.
    apply handleTool_await_inv in He as (_ & _ & Ha). cbn zeta in Ha. simpl in Ha.
    destruct Ha as [(Hn & _) | [(_ & _ & r & Hr & ->) | (Hn & _)]];
      [by vm_compute in Hn | | by vm_compute in Hn].
    exists r. split; [by apply validateRecipeName_inr in Hr as [? _] | done].
Qed.

(** ** The registry and the dispatcher *)

Lemma prop_delete_eq (b : bag) (k : string) :
  prop (delete (lit k) b) k = JUndefined.
Proof. unfold prop. by rewrite lookup_delete_eq. Qed.

Lemma prop_delete_ne (b : bag) (k : string) (k' : jstring) :
  k' <> lit k -> prop (delete k' b) k = prop b k.
Proof. intros H. unfold prop. by rewrite lookup_delete_ne. Qed.

(** X10. The operations the server advertises are the ones it handles: the
    registry lists each name once, and a name is answered with
    [Unknown tool] exactly when the registry does not list it. *)
Theorem registry_matches_switch (name : jstring) (args : option bag) :
  NoDup (tool_name <$> listTools)
  /\ (name ∈ (tool_name <$> listTools) <->
      handleTool name args <> Throw (JsError (lit "Unknown tool: " ++ name))).
Proof.
  change (tool_name <$> listTools) with known_tools.
  split.
  - apply (bool_decide_unpack _). by vm_compute.
  - split.
    + intros Hk. unfold known_tools in Hk. each_member Hk.
      * by rewrite handleTool_list.
      * rewrite handleTool_run. cbn zeta.
        destruct (validateRecipeName _) as [e | r] eqn:E; [| done].
        apply validateRecipeName_inl in E as [-> | [-> | ->]];
          intros [= H]; by vm_compute in H.
      * rewrite handleTool_show. cbn zeta.
        destruct (validateRecipeName _) as [e | r] eqn:E; [| done].
        apply validateRecipeName_inl in E as [-> | [-> | ->]];
          intros [= H]; by vm_compute in H.
    + intros H. destruct (decide (name ∈ known_tools)) as [| Hn]; [done |].
      destruct H. by apply handleTool_unknown.
Qed.

(** X11. Each operation reads only the properties its schema declares: setting
    any other key of the argument bag, to any value, changes nothing in how
    the request is handled. *)
Theorem undeclared_key_ignored (t : tool) (k : jstring) (v : value) (b : bag) :
  t ∈ tools ->
  k ∉ (prop_name <$> tool_properties t) ->
  handleTool (tool_name t) (Some (<[k := v]> b)) = handleTool (tool_name t) (Some b).
Proof.
  intros Ht Hk. unfold tools in Ht. each_member Ht;
    cbn [tool_name tool_properties fmap list_fmap prop_name] in *;
    repeat (apply not_elem_of_cons in Hk as [? Hk]).
  - rewrite !handleTool_list. cbn [default from_option id].
    by rewrite !prop_insert_ne by done.
  - rewrite !handleTool_run. cbn [default from_option id]. unfold extra_args, requested_timeout.
    by rewrite !prop_insert_ne by done.
  - rewrite !handleTool_show. cbn [default from_option id].
    by rewrite !prop_insert_ne by done.
Qed.

Lemma undeclared_key_ignored_witness :
  handleTool (lit "show") (Some (<[lit "args" := JArr [JStr (lit "-x")]]> build_release))
  = handleTool (lit "show") (Some build_release).
Proof.
  refine (undeclared_key_ignored
            {| tool_name := lit "show";
               tool_description := lit "Show the definition of a recipe";
               tool_properties :=
                 [ PropertySchema (lit "recipe") TString (lit "Recipe name to show");
                   PropertySchema (lit "working_directory") TString
                     (lit "Directory containing the justfile");
                   PropertySchema (lit "justfile") TString
                     (lit "Path to the justfile (optional)") ];
               tool_required := [lit "recipe"] |}
            (lit "args") (JArr [JStr (lit "-x")]) build_release _ _).
  - right. right. left.
  - apply (bool_decide_unpack _). by vm_compute.
Defined.

(** X12. An optional property whose value fails the type test of its schema is
    treated as if it were absent: the request is handled as without it and
    no error is raised for it. *)
Theorem ill_typed_option_ignored (t : tool) (p : property_schema) (v : value) (b : bag) :
  t ∈ tools ->
  p ∈ tool_properties t ->
  prop_name p ∉ tool_required t ->
  accepted_as (prop_type p) v = false ->
  handleTool (tool_name t) (Some (<[prop_name p := v]> b))
  = handleTool (tool_name t) (Some (delete (prop_name p) b)).
Proof.
  intros Ht Hp Hreq Hv. unfold tools in Ht. each_member Ht;
    cbn [tool_name tool_properties tool_required] in *;
    each_member Hp; cbn [prop_name prop_type] in *;
    try (by destruct Hreq; left).
  all: rewrite ?handleTool_list, ?handleTool_run, ?handleTool_show;
    cbn [default from_option id]; unfold extra_args, requested_timeout;
    rewrite ?prop_insert_eq, ?prop_delete_eq;
    rewrite ?prop_insert_ne, ?prop_delete_ne by lit_neq;
    by destruct v.
Qed.

Lemma ill_typed_option_ignored_witness :
  handleTool (lit "list") (Some (<[lit "justfile" := JNum 1%float]> build_release))
  = handleTool (lit "list") (Some (delete (lit "justfile") build_release)).
Proof.
  refine (ill_typed_option_ignored
            {| tool_name := lit "list";
               tool_description := lit "List available recipes in the justfile";
               tool_properties :=
                 [ PropertySchema (lit "working_directory") TString
                     (lit "Directory containing the justfile");
                   PropertySchema (lit "justfile") TString
                     (lit "Path to the justfile (optional)") ];
               tool_required := [] |}
            (PropertySchema (lit "justfile") TString
               (lit "Path to the justfile (optional)"))
            (JNum 1%float) build_release _ _ _ eq_refl).
  - left.
  - right. left.
  - apply not_elem_of_nil.
Defined.

(** X13. A required property that is missing, or is not a string, fails the
    request with the message for a missing recipe name, and nothing is
    spawned. *)
Theorem missing_required_property (process_cwd : jstring) (os : host)
    (t : tool) (k : jstring) (args : option bag) :
  t ∈ tools ->
  k ∈ tool_required t ->
  (forall s, default ∅ args !! k <> Some (JStr s)) ->
  callTool process_cwd os (Request (tool_name t) args)
  = (Fulfilled {| text := lit "Error: Recipe name must be a non-empty string";
                  isError := true |}, []).
Proof.
  intros Ht Hk Hmiss. unfold tools in Ht. each_member Ht;
    cbn [tool_name tool_required] in *; each_member Hk.
  all: assert (Hv : validateRecipeName (prop (default ∅ args) "recipe")
                    = inl (JsError msg_not_a_name))
    by (unfold prop; destruct (default ∅ args !! lit "recipe") as [[]|] eqn:E;
        try done; by destruct (Hmiss s)).
  - pose proof (handleTool_run args) as H. cbn zeta in H. rewrite Hv in H.
    by rewrite (callTool_throw _ _ (Request (lit "run") args) _ H).
  - pose proof (handleTool_show args) as H. cbn zeta in H. rewrite Hv in H.
    by rewrite (callTool_throw _ _ (Request (lit "show") args) _ H).
Qed.

Lemma missing_required_property_witness :
  callTool (lit "/home") (fun _ => Spawned [ProcClose (Some 0)]) (Request (lit "run") None)
  = (Fulfilled {| text := lit "Error: Recipe name must be a non-empty string";
                  isError := true |}, []).
Proof.
  refine (missing_required_property (lit "/home") (fun _ => Spawned [ProcClose (Some 0)])
            {| tool_name := lit "run";
               tool_description := lit "Run a recipe from the justfile";
               tool_properties :=
                 [ PropertySchema (lit "recipe") TString (lit "Recipe name to run");
                   PropertySchema (lit "args") (TArrayOf TString)
                     (lit "Arguments to pass to the recipe");
                   PropertySchema (lit "working_directory") TString
                     (lit "Directory containing the justfile");
                   PropertySchema (lit "justfile") TString
                     (lit "Path to the justfile (optional)");
                   PropertySchema (lit "timeout") TNumber
                     (lit "Timeout in milliseconds (default: 300000)") ];
               tool_required := [lit "recipe"] |}
            (lit "recipe") None _ _ _).
  - right. left.
  - left.
  - intros s. cbn [default from_option id]. by rewrite lookup_empty.
Defined.

(** ** From the child's events to the response *)

Lemma formatResult_timed_out (out err : jstring) :
  formatResult (Outcome out (err ++ NL ++ lit "[Process timed out]") 124)
  = out ++ (if decide (out = []) then [] else NL) ++ err
    ++ NL ++ lit "[Process timed out]" ++ NL ++ lit "[Exit code: 124]".
Proof.
  rewrite formatResult_cases. cbn zeta.
  rewrite (decide_False (P := 124 = 0)) by done.
  change (exit_marker 124) with (NL ++ lit "[Exit code: 124]").
  rewrite separator_truthy.
  assert (truthy (err ++ NL ++ lit "[Process timed out]") = true) as ->
    by (by destruct err).
  rewrite andb_true_r.
  destruct out; cbn [truthy]; [by rewrite decide_True, <- !app_assoc by done |].
  rewrite decide_False by done. by rewrite <- !app_assoc.
Qed.

Lemma formatResult_spawn_error (message : jstring) :
  formatResult (Outcome [] message 1) = message ++ NL ++ lit "[Exit code: 1]".
Proof.
  rewrite formatResult_cases. cbn zeta.
  rewrite (decide_False (P := 1 = 0)) by done.
  change (exit_marker 1) with (NL ++ lit "[Exit code: 1]").
  rewrite separator_truthy. by cbn.
Qed.

(** X14. How the result of [spawn] shows in the response of a request that
    reached the executor.  [spawn] throws: the failure response
    [Error: <message>].  A child with no close and no error event: the
    request stays pending, timer or not.  An error event first: a success
    response with the error's message and [[Exit code: 1]].  A timeout: a
    success response with the captured output, the timeout line and
    [[Exit code: 124]].  Otherwise the formatted output with the child's
    own status, 1 when it has none. *)
Theorem response_of_trace (process_cwd : jstring) (os : host) (req : request)
    (a : list jstring) (w : option jstring) (t : option float)
    (pre rest : list proc_event) (code : option Z) (message : jstring) :
  handleTool (name req) (arguments req) = AwaitExec a w t then_format ->
  quiet pre = true ->
  let result := os (execJust_spawn process_cwd a w t) in
  let answer := fst (callTool process_cwd os req) in
  let out := stdout_of pre in
  let err := stderr_of pre in
  (result = SpawnThrows (JsError message) ->
   answer = Fulfilled {| text := lit "Error: " ++ message; isError := true |})
  /\ (result = Spawned pre -> answer = NeverSettles)
  /\ (result = Spawned (pre ++ ProcError message :: rest) ->
      answer = Fulfilled {| text := message ++ NL ++ lit "[Exit code: 1]";
                            isError := false |})
  /\ (result = Spawned (pre ++ ProcClose code :: rest) ->
      timer_fires_in pre = true ->
      answer = Fulfilled
                 {| text := out ++ (if decide (out = []) then [] else NL) ++ err
                            ++ NL ++ lit "[Process timed out]"
                            ++ NL ++ lit "[Exit code: 124]";
                    isError := false |})
  /\ (result = Spawned (pre ++ ProcClose code :: rest) ->
      timer_fires_in pre = false ->
      answer = Fulfilled
                 {| text := formatResult (Outcome out err (default 1 code));
                    isError := false |}).
Proof.
  intros He Hq. cbn zeta. rewrite (callTool_exec _ _ _ _ _ _ He).
  split; [| split; [| split; [| split]]].
  - by intros ->.
  - intros ->. by rewrite (proj2 (execJust_unsettled_iff pre) Hq).
  - intros ->. rewrite outcome_on_error by done. simpl.
    by rewrite formatResult_spawn_error.
  - intros -> Hf. rewrite outcome_on_close, Hf by done. simpl.
    unfold timeout_marker. by rewrite formatResult_timed_out.
  - intros -> Hf. by rewrite outcome_on_close, Hf by done.
Qed.

(** [list] against a child that prints and then hangs until the timer. *)
Lemma response_of_trace_witness :
  fst (callTool (lit "/home")
         (fun _ => Spawned ([StdoutData (lit "a"); TimerFires] ++ ProcClose None :: []))
         (Request (lit "list") None))
  = Fulfilled {| text := lit "a" ++ NL ++ [] ++ NL ++ lit "[Process timed out]"
                         ++ NL ++ lit "[Exit code: 124]";
                 isError := false |}.
Proof.
  exact (proj1 (proj2 (proj2 (proj2
           (response_of_trace (lit "/home")
              (fun _ => Spawned ([StdoutData (lit "a"); TimerFires] ++ ProcClose None :: []))
              (Request (lit "list") None)
              [lit "--color=never"; lit "--list"] None None
              [StdoutData (lit "a"); TimerFires] [] None [] eq_refl eq_refl))))
           eq_refl eq_refl).
Defined.

(** X15. Every response carries a non-empty text. *)
Theorem response_text_nonempty (process_cwd : jstring) (os : host)
    (req : request) (r : response) :
  fst (callTool process_cwd os req) = Fulfilled r -> text r <> [].
Proof.
  destruct (handleTool_shape (name req) (arguments req))
    as [(e & He & _) | (a & w & t & He)].
  - rewrite (callTool_throw _ _ _ _ He). simpl. intros [= <-]. simpl.
    discriminate.
  - rewrite (callTool_exec _ _ _ _ _ _ He).
    destruct (os _) as [e | events]; simpl.
    { intros [= <-]. simpl. discriminate. }
    destruct (execJust_outcome _); simpl; [| done].
    intros [= <-]. simpl. apply formatResult_nonempty.
Qed.

Lemma response_text_nonempty_witness :
  text {| text := lit "Command completed successfully"; isError := false |} <> [].
Proof.
  exact (response_text_nonempty (lit "/home") (fun _ => Spawned [ProcClose (Some 0)])
           (Request (lit "list") None)
           {| text := lit "Command completed successfully"; isError := false |}
           eq_refl).
Defined.
